(** * Listening fill-in-the-blanks quiz (src/src/App.jsx)

    A shallow embedding of the logic of [ListeningFIBApp]: the transcript
    parser shared by [addQuestion] and [updateQuestion], the editable
    transcript rebuilt by [AdminPanel], the grading functions [isCorrect] and
    [handleCheck], the session handlers, the question store and the
    initialisation of the collection from [localStorage].

    JavaScript strings are sequences of UTF-16 code units; a code unit is an
    [N].  Arrays are lists, read with stdpp's lookup [l !! i] ([None] is
    JavaScript's [undefined]); the [answers] object, keyed by blank index, is
    a [gmap nat].  Functions that can raise return a [completion]. *)

From Stdlib Require Import NArith ZArith Ascii String DecimalString DecimalZ.
From stdpp Require Import base option list gmap.

Local Open Scope N_scope.

(** ** JavaScript values used by the component *)

Module JS.

Definition char := N.
Definition jsstring := list char.

(** An ASCII literal as a JavaScript string (one code unit per character). *)
Definition js (s : string) : jsstring := map N_of_ascii (list_ascii_of_string s).

Inductive JsError := SyntaxError | TypeError.

Inductive completion (A : Type) :=
| Normal (a : A)
| Throw (e : JsError).
Global Arguments Normal {A} a.
Global Arguments Throw {A} e.

(** [ToBoolean] of a string or of [undefined]: only a non-empty string is
    truthy. *)
Definition truthy (v : option jsstring) : bool :=
  match v with
  | Some (_ :: _) => true
  | _ => false
  end.

(** [a || b] on values that are strings or [undefined]. *)
Definition or_else (a b : option jsstring) : option jsstring :=
  if truthy a then a else b.

(** [str.slice(a, b)] and [str.slice(a)] for non-negative indices. *)
Definition slice (str : jsstring) (a b : nat) : jsstring := take (b - a) (drop a str).
Definition slice_from (str : jsstring) (a : nat) : jsstring := drop a str.

(** ECMAScript LineTerminator: LF, CR, LS and PS.  The pattern character
    [.] (without the [s] flag) matches every code unit but these. *)
Definition isLineTerminator (c : char) : bool :=
  (c =? 10) || (c =? 13) || (c =? 8232) || (c =? 8233).

(** ECMAScript WhiteSpace: TAB, VT, FF, ZWNBSP and the space separators. *)
Definition isWhiteSpace (c : char) : bool :=
  (c =? 9) || (c =? 11) || (c =? 12) || (c =? 32) || (c =? 160)
  || (c =? 5760) || ((8192 <=? c) && (c <=? 8202))
  || (c =? 8239) || (c =? 8287) || (c =? 12288) || (c =? 65279).

(** [String.prototype.trim] strips WhiteSpace and LineTerminator code units
    from both ends. *)
Definition isTrimmed (c : char) : bool := isWhiteSpace c || isLineTerminator c.

Fixpoint trimStart (s : jsstring) : jsstring :=
  match s with
  | [] => []
  | c :: r => if isTrimmed c then trimStart r else s
  end.

Definition trimEnd (s : jsstring) : jsstring := rev (trimStart (rev s)).

Definition trim (s : jsstring) : jsstring := trimEnd (trimStart s).

(** [String.prototype.toLowerCase] restricted to what it does on the ASCII
    letters; used to instantiate the platform function in examples. *)
Definition ascii_toLowerCase (s : jsstring) : jsstring :=
  map (fun c => if (65 <=? c) && (c <=? 90) then c + 32 else c) s.

(** [String(n)] for an integer [n]: its decimal numeral. *)
Definition number_to_string (n : Z) : jsstring :=
  js (NilEmpty.string_of_int (Z.to_int n)).

End JS.
Import JS.

(** ** The transcript parser

    [addQuestion] and [updateQuestion] run the same loop over the global
    pattern [/\[(.+?)\]/g]. *)

Module Parser.

Definition LBRACKET : char := 91.
Definition RBRACKET : char := 93.

Inductive token :=
| Lit (s : jsstring)       (* a string element of [tokens] *)
| Blank (blank : nat).     (* an object [{ blank: n }] *)

(** The lazy group [(.+?)] followed by [\]], once the group holds its first
    character: the match ends at the first [']'] and every character the
    group takes before it must be matched by [.]. The result is what the
    group adds to its first character. *)
Fixpoint lazy_until_close (s : jsstring) : option jsstring :=
  match s with
  | [] => None
  | c :: r =>
      if c =? RBRACKET then Some []
      else if isLineTerminator c then None
      else cons c <$> lazy_until_close r
  end.

(** The pattern matched at the head of [s]; the result is the capture
    [m[1]]. The matched text [m[0]] is the capture between two brackets. *)
Definition match_at (s : jsstring) : option jsstring :=
  match s with
  | c0 :: c1 :: r =>
      if (c0 =? LBRACKET) && negb (isLineTerminator c1)
      then cons c1 <$> lazy_until_close r
      else None
  | _ => None
  end.

(** The leftmost position, from index [i] on, where the pattern matches;
    [s] is the subject from index [i]. *)
Fixpoint search (s : jsstring) (i : nat) : option (nat * jsstring) :=
  match match_at s with
  | Some g => Some (i, g)
  | None =>
      match s with
      | [] => None
      | _ :: r => search r (S i)
      end
  end.

(** [regex.exec(str)] for the global pattern whose [lastIndex] is
    [re_lastIndex]: the match ([m.index], [m[1]]) or [null], and the new
    [regex.lastIndex] (the end of the match, or 0 after a failure). *)
Definition exec (re_lastIndex : nat) (str : jsstring)
  : option (nat * jsstring) * nat :=
  match search (drop re_lastIndex str) re_lastIndex with
  | Some (index, g) => (Some (index, g), index + (length g + 2))%nat
  | None => (None, 0%nat)
  end.

(** The variables of the loop. *)
Record state := {
  st_tokens : list token;
  st_blanks : list jsstring;
  st_lastIndex : nat;
  st_regex_lastIndex : nat
}.

Definition init : state :=
  {| st_tokens := []; st_blanks := []; st_lastIndex := 0; st_regex_lastIndex := 0 |}.

(** One iteration of the body of [while ((m = regex.exec(transcript)))]. *)
Definition body (transcript : jsstring) (st : state)
    (index : nat) (g : jsstring) (re_lastIndex : nat) : state :=
  let tokens1 :=
    if (st_lastIndex st <? index)%nat
    then st_tokens st ++ [Lit (slice transcript (st_lastIndex st) index)]
    else st_tokens st in
  {| st_tokens := tokens1 ++ [Blank (length (st_blanks st))];
     st_blanks := st_blanks st ++ [g];
     st_lastIndex := re_lastIndex;
     st_regex_lastIndex := re_lastIndex |}.

(** The [while] loop; [None] when [fuel] iterations were not enough. *)
Fixpoint loop (fuel : nat) (transcript : jsstring) (st : state) : option state :=
  match fuel with
  | O => None
  | S fuel' =>
      match exec (st_regex_lastIndex st) transcript with
      | (Some (index, g), re_lastIndex) =>
          loop fuel' transcript (body transcript st index g re_lastIndex)
      | (None, _) => Some st
      end
  end.

(** The statement after the loop, and the pair ([tokens], [blanks]) the
    question is built from. *)
Definition finish (transcript : jsstring) (st : state) : list token * list jsstring :=
  (if (st_lastIndex st <? length transcript)%nat
   then st_tokens st ++ [Lit (slice_from transcript (st_lastIndex st))]
   else st_tokens st,
   st_blanks st).

(** Every match is at least three code units long, so the loop runs at most
    [length transcript / 3] times and the fuel given here is enough, as
    [loop_finish] shows. *)
Definition parse (transcript : jsstring) : option (list token * list jsstring) :=
  finish transcript <$> loop (S (length transcript)) transcript init.

(** [AdminPanel] rebuilds the editable transcript:
    [tokens.map(t => typeof t === "string" ? t : `[${blanks[t.blank]}]`).join("")]. *)
Definition render_token (blanks : list jsstring) (t : token) : jsstring :=
  match t with
  | Lit s => s
  | Blank i =>
      [LBRACKET] ++ default (js "undefined") (blanks !! i) ++ [RBRACKET]
  end.

Definition render (tokens : list token) (blanks : list jsstring) : jsstring :=
  concat (map (render_token blanks) tokens).

End Parser.
Import Parser.

(** ** What the pattern matches *)

Module Spans.

(** What the group [(.+?)] can capture: one character matched by [.],
    then characters matched by [.] that are not the closing bracket. *)
Definition span_content (g : jsstring) : bool :=
  match g with
  | [] => false
  | c :: r =>
      negb (isLineTerminator c)
      && forallb (fun x => negb (x =? RBRACKET) && negb (isLineTerminator x)) r
  end.

(** A span begins at the head of [s]. *)
Definition starts_span (s : jsstring) : Prop :=
  exists g rest, span_content g = true /\ s = LBRACKET :: g ++ RBRACKET :: rest.

(** The spans of a string, found from left to right: [spans s l tail] cuts
    [s] into the pairs of [l], each the text before a span and the content
    of the span, and the text after the last span. No span begins inside
    the text before a span, nor anywhere in [tail]. *)
Inductive spans : jsstring -> list (jsstring * jsstring) -> jsstring -> Prop :=
| spans_tail s :
    (forall k, ~ starts_span (drop k s)) ->
    spans s [] s
| spans_cons lit g rest l tail :
    span_content g = true ->
    (forall k, (k < length lit)%nat ->
               ~ starts_span (drop k (lit ++ LBRACKET :: g ++ RBRACKET :: rest))) ->
    spans rest l tail ->
    spans (lit ++ LBRACKET :: g ++ RBRACKET :: rest) ((lit, g) :: l) tail.

(** The tokens the spans give, the first blank numbered [n]. *)
Fixpoint span_tokens (n : nat) (l : list (jsstring * jsstring)) : list token :=
  match l with
  | [] => []
  | (lit, _) :: l' =>
      match lit with [] => [] | _ => [Lit lit] end
      ++ Blank n :: span_tokens (S n) l'
  end.

Definition tail_tokens (tail : jsstring) : list token :=
  match tail with [] => [] | _ => [Lit tail] end.

(** The string put together again from its spans, and the string with the
    brackets of its spans removed. *)
Definition bracketed (l : list (jsstring * jsstring)) (tail : jsstring) : jsstring :=
  concat (map (fun p => fst p ++ [LBRACKET] ++ snd p ++ [RBRACKET]) l) ++ tail.






(** Tokens read with the text [w a] in place of a blank whose answer is [a]:
    [render] and [fill] are the cases where [w] puts the brackets back and
    where it changes nothing. *)
Definition expand_token (w : jsstring -> jsstring) (blanks : list jsstring) (t : token)
  : jsstring :=
  match t with
  | Lit s => s
  | Blank i => w (default (js "undefined") (blanks !! i))
  end.

Definition expand (w : jsstring -> jsstring) (tokens : list token) (blanks : list jsstring)
  : jsstring :=
  concat (map (expand_token w blanks) tokens).

End Spans.
Import Spans.

(** ** The question store *)

Module Store.

(** A question record. [timeLimitSec] is a number of seconds, a whole number
    here, or missing. *)
Record Question := {
  q_id : jsstring;
  q_title : option jsstring;
  q_audioUrl : option jsstring;
  q_timeLimitSec : option Z;
  q_tokens : list token;
  q_blanks : list jsstring
}.

(** The argument of [addQuestion] and [updateQuestion]. A property the
    caller leaves out is [undefined], here [None]. *)
Record Draft := {
  d_title : option jsstring;
  d_transcript : jsstring;
  d_audioUrl : option jsstring;
  d_timeLimitSec : option Z
}.

(** The element of the array [SAMPLE_QUESTIONS]. *)
Definition SAMPLE_Q1 : Question :=
  {| q_id := js "q1";
     q_title := Some (js "Urban parks audio clip");
     q_audioUrl :=
       Some (js "https://www.soundhelix.com/examples/mp3/SoundHelix-Song-1.mp3");
     q_timeLimitSec := Some 90%Z;
     q_tokens :=
       [ Lit (js "City parks provide vital "); Blank 0;
         Lit (js " for residents, offering spaces for "); Blank 1;
         Lit (js ", relaxation, and community events.") ];
     q_blanks := [js "amenities"; js "exercise"] |}.

Definition SAMPLE_QUESTIONS : list Question := [SAMPLE_Q1].

(** ["q" + Date.now()]. *)
Definition timestamp_id (now : Z) : jsstring := js "q" ++ number_to_string now.

(** [addQuestion(draft)] when [Date.now()] returns [now]: the collection
    handed to [saveQuestions], which makes it the state [questions] and
    writes it to [localStorage]. [None] only if the parser's loop did not
    end. *)
Definition addQuestion (now : Z) (questions : list Question) (d : Draft)
  : option (list Question) :=
  '(tokens, blanks) ← parse (d_transcript d);
  let newQ :=
    {| q_id := timestamp_id now;
       q_title := or_else (d_title d) (Some (js "Custom question"));
       q_audioUrl := d_audioUrl d;
       q_timeLimitSec := d_timeLimitSec d;
       q_tokens := tokens;
       q_blanks := blanks |} in
  Some (questions ++ [newQ]).

(** [updateQuestion(id, draft)]: the object spread keeps the properties of
    [q] that the literal does not name, which is [id]. *)
Definition updateQuestion (questions : list Question) (id : jsstring) (d : Draft)
  : option (list Question) :=
  '(tokens, blanks) ← parse (d_transcript d);
  let updated :=
    map (fun q =>
           if decide (q_id q = id)
           then {| q_id := q_id q;
                   q_title := or_else (d_title d) (q_title q);
                   q_audioUrl := d_audioUrl d;
                   q_timeLimitSec := d_timeLimitSec d;
                   q_tokens := tokens;
                   q_blanks := blanks |}
           else q)
        questions in
  Some updated.

(** The initial value of the state [questions]. [saved] is what
    [localStorage.getItem("fib-questions")] returns ([None] for [null]) and
    [JSON_parse] is the platform's [JSON.parse], which raises a
    [SyntaxError] on a text that is not JSON. Only texts that denote a
    list of question records are given a value here. *)
Definition initQuestions
    (JSON_parse : jsstring -> completion (list Question))
    (saved : option jsstring) : completion (list Question) :=
  match saved with
  | Some (c :: s) => JSON_parse (c :: s)
  | _ => Normal SAMPLE_QUESTIONS
  end.

End Store.
Import Store.

(** ** Grading and the quiz session *)

Module Session.

(** The platform's [String.prototype.toLowerCase]. *)
Class Platform := { toLowerCase : jsstring -> jsstring }.

(** The ASCII case mapping, for running the definitions on examples. *)
Definition ascii_platform : Platform := {| toLowerCase := ascii_toLowerCase |}.

(** The values [isCorrect] returns. *)
Inductive value :=
| Undefined
| Str (s : jsstring)
| Bool (b : bool).

Definition ToBoolean (v : value) : bool :=
  match v with
  | Undefined => false
  | Str s => truthy (Some s)
  | Bool b => b
  end.

(** The state of the component that the handlers below read and set. *)
Record session := {
  answers : gmap nat jsstring;
  checked : bool;
  score : nat;
  timeLeft : option Z
}.

(** The initial values given to [useState]. *)
Definition initial : session :=
  {| answers := ∅; checked := false; score := 0; timeLeft := None |}.

Definition blanksCount (q : Question) : nat := length (q_blanks q).

(** [answers[i] && answers[i].trim().toLowerCase() ===
    q.blanks[i].trim().toLowerCase()]: a falsy [answers[i]] is the result;
    otherwise [q.blanks[i]] is read, and [trim] of [undefined] raises. *)
Definition isCorrect `{Platform} (answers : gmap nat jsstring) (q : Question) (i : nat)
  : completion value :=
  match answers !! i with
  | None => Normal Undefined
  | Some [] => Normal (Str [])
  | Some a =>
      match q_blanks q !! i with
      | Some b => Normal (Bool (bool_decide (toLowerCase (trim a) = toLowerCase (trim b))))
      | None => Throw TypeError
      end
  end.

(** [for (let i = 0; i < blanksCount; i++) if (isCorrect(i)) c++;] with [n]
    iterations left. *)
Fixpoint count_correct `{Platform} (answers : gmap nat jsstring) (q : Question)
    (n i c : nat) : completion nat :=
  match n with
  | O => Normal c
  | S n' =>
      match isCorrect answers q i with
      | Normal v => count_correct answers q n' (S i) (if ToBoolean v then S c else c)
      | Throw e => Throw e
      end
  end.

Definition handleCheck `{Platform} (q : Question) (st : session) : completion session :=
  match count_correct (answers st) q (blanksCount q) 0 0 with
  | Normal c =>
      Normal {| answers := answers st; checked := true; score := c;
                timeLeft := timeLeft st |}
  | Throw e => Throw e
  end.

(** [q.blanks.forEach((ans, i) => (filled[i] = ans))] from [filled = {}]. *)
Definition filled (blanks : list jsstring) : gmap nat jsstring :=
  foldl (fun filled p => <[p.1 := p.2]> filled) ∅ (imap pair blanks).

Definition handleShowAnswers (q : Question) (st : session) : session :=
  {| answers := filled (q_blanks q); checked := true; score := score st;
     timeLeft := timeLeft st |}.

Definition handleReset (q : Question) (st : session) : session :=
  {| answers := ∅; checked := false; score := 0; timeLeft := q_timeLimitSec q |}.

(** The [onChange] of the input of blank [blank]. *)
Definition typeAnswer (blank : nat) (val : jsstring) (st : session) : session :=
  {| answers := <[blank := val]> (answers st); checked := checked st;
     score := score st; timeLeft := timeLeft st |}.

(** The two places that call [handleCheck]: the button "Check answers",
    which is [disabled] while [checked] holds, and the effect
    [if (timeLeft === 0 && !checked) handleCheck()]. *)
Definition checkButton `{Platform} (q : Question) (st : session) : completion session :=
  if checked st then Normal st else handleCheck q st.

Definition expiryEffect `{Platform} (q : Question) (st : session) : completion session :=
  if bool_decide (timeLeft st = Some 0%Z) && negb (checked st)
  then handleCheck q st
  else Normal st.

End Session.
Import Session.

(** Membership of a character in a concrete string, decided by computation. *)
Ltac decide_mem := apply (bool_decide_unpack _); vm_compute; exact I.

(** ** The rest of the component: timer, blanks on screen, navigation *)

Module View.

(** One period of the interval the timer effect sets. The effect sets it
    only when [timeLeft] is neither [null], nor 0, nor negative, and its
    callback is [t => (t == null ? null : t - 1)]. The subtraction is that
    of whole numbers, which is what the code computes for a time left of at
    most 2^53; the properties of the countdown are stated within that
    bound. *)
Definition tick (st : session) : session :=
  match timeLeft st with
  | Some t =>
      if (0 <? t)%Z
      then {| answers := answers st; checked := checked st; score := score st;
              timeLeft := Some (t - 1)%Z |}
      else st
  | None => st
  end.

(** A second of the clock: the tick, then the effect that depends on
    [timeLeft] and [checked]. *)
Definition second `{Platform} (q : Question) (st : session) : completion session :=
  expiryEffect q (tick st).

Fixpoint seconds `{Platform} (n : nat) (q : Question) (st : session) : completion session :=
  match n with
  | O => Normal st
  | S n' =>
      match second q st with
      | Normal st' => seconds n' q st'
      | Throw e => Throw e
      end
  end.

(** What happens when a question becomes the active one: the effect on
    [index] and [q] sets the four states as [handleReset] does, and the
    effect on [timeLeft] and [checked] follows. *)
Definition enterQuestion `{Platform} (q : Question) (st : session) : completion session :=
  expiryEffect q (handleReset q st).

(** The border of [BlankInput]: [correct == null] holds of [null] and of
    [undefined]. *)
Inductive border := Gray | Green | Red.

Definition BlankInput_border (correct : option value) : border :=
  match correct with
  | None => Gray
  | Some Undefined => Gray
  | Some v => if ToBoolean v then Green else Red
  end.

(** The input drawn for the token [{ blank }]: its [value],
    [answers[t.blank] || ""], and its border, from
    [correct={checked ? isCorrect(t.blank) : null}]. *)
Definition blankInput `{Platform} (st : session) (q : Question) (blank : nat)
  : completion (jsstring * border) :=
  let value := default [] (or_else (answers st !! blank) (Some [])) in
  if checked st
  then match isCorrect (answers st) q blank with
       | Normal v => Normal (value, BlankInput_border (Some v))
       | Throw e => Throw e
       end
  else Normal (value, BlankInput_border None).

(** [nextQ] and [prevQ], as the functions given to [setIndex]. *)
Definition nextQ (questions : list Question) (i : Z) : Z :=
  Z.min (Z.of_nat (length questions) - 1) (i + 1).

Definition prevQ (i : Z) : Z := Z.max 0 (i - 1).

(** [const q = questions[index]; const blanksCount = q.blanks.length;] at the
    head of the component: reading [blanks] of [undefined] raises. *)
Definition activeQuestion (questions : list Question) (index : Z) : completion Question :=
  match (if (0 <=? index)%Z then questions !! Z.to_nat index else None) with
  | Some q => Normal q
  | None => Throw TypeError
  end.

(** [str.padStart(2, "0")]. *)
Definition padStart2 (str : jsstring) : jsstring :=
  replicate (2 - length str) 48 ++ str.

(** [formatTime(sec)] on a whole number of seconds: [Math.floor(sec / 60)]
    rounds down, [sec % 60] has the sign of [sec], and [Math.floor] of a whole
    number is the number. The division and the numerals are those of whole
    numbers, which is what the code computes for at most 2^53 seconds; the
    property of [formatTime] is stated within that bound. *)
Definition formatTime (sec : Z) : jsstring :=
  if (sec =? 0)%Z then js "0:00"
  else number_to_string (sec / 60)%Z ++ js ":"
       ++ padStart2 (number_to_string (Z.rem sec 60)).

End View.
Import View.

(** ** Administration: deleting and the form of [AdminPanel] *)

Module Admin.

(** [questions.filter((q) => q.id !== id)], the collection [deleteQuestion]
    saves. *)
Definition deleteQuestion (questions : list Question) (id : jsstring) : list Question :=
  filter (fun q => q_id q <> id) questions.

(** The states of [AdminPanel]. The time limit is a whole number here: the
    number the state starts with, or the text of the number input read by
    [Number]. *)
Record Form := {
  f_title : option jsstring;
  f_transcript : jsstring;
  f_audioUrl : option jsstring;
  f_timeLimit : Z
}.

(** The states a new question starts from, and those [handleSave] leaves. *)
Definition emptyForm : Form :=
  {| f_title := Some []; f_transcript := []; f_audioUrl := Some [];
     f_timeLimit := 90 |}.

(** The states [AdminPanel] starts from when [editQuestion] is a question
    with a time limit. *)
Definition editForm (editQuestion : Question) : option Form :=
  timeLimit ← q_timeLimitSec editQuestion;
  Some {| f_title := q_title editQuestion;
          f_transcript := render (q_tokens editQuestion) (q_blanks editQuestion);
          f_audioUrl := q_audioUrl editQuestion;
          f_timeLimit := timeLimit |}.

(** What [handleSave] leaves: the collection, the states of the form, and
    the parent's [editQuestion]. *)
Record Saved := {
  s_questions : list Question;
  s_form : Form;
  s_editQuestion : option Question
}.

(** [handleSave]. A form without title, transcript or audio URL is refused:
    nothing is saved and every state stays. Otherwise the draft goes to
    [updateQuestion] or [addQuestion], [clearEdit] runs after an update,
    and the form is emptied. [None] only if the parser's loop did not
    end. *)
Definition handleSave (now : Z) (questions : list Question)
    (editQuestion : option Question) (f : Form) : option Saved :=
  if negb (truthy (Some (f_transcript f))) || negb (truthy (f_audioUrl f))
     || negb (truthy (f_title f))
  then Some {| s_questions := questions; s_form := f; s_editQuestion := editQuestion |}
  else
    let draft := {| d_title := f_title f; d_transcript := f_transcript f;
                    d_audioUrl := f_audioUrl f;
                    d_timeLimitSec := Some (f_timeLimit f) |} in
    saved ← match editQuestion with
            | Some q => updateQuestion questions (q_id q) draft
            | None => addQuestion now questions draft
            end;
    Some {| s_questions := saved; s_form := emptyForm; s_editQuestion := None |}.

(** A question as the form leaves them: with a title, an audio URL and a
    time limit. *)
Definition complete (q : Question) : bool :=
  truthy (q_title q) && truthy (q_audioUrl q)
  && match q_timeLimitSec q with Some _ => true | None => false end.

End Admin.
Import Admin.

(** ** What the parser's tokens look like *)

Module Shape.

(** The blank indices of the placeholders, in token order. *)
Definition blank_indices (tokens : list token) : list nat :=
  omap (fun t => match t with Blank i => Some i | Lit _ => None end) tokens.

(** No literal token is empty and no two literal tokens are neighbours. *)
Fixpoint tidy (tokens : list token) : bool :=
  match tokens with
  | [] => true
  | Lit s :: rest =>
      match s with [] => false | _ => true end
      && match rest with Lit _ :: _ => false | _ => true end
      && tidy rest
  | Blank _ :: rest => tidy rest
  end.

(** Whether [isCorrect] returns a truthy value. *)
Definition graded `{Platform} (answers : gmap nat jsstring) (q : Question) (i : nat) : bool :=
  match isCorrect answers q i with
  | Normal v => ToBoolean v
  | Throw _ => false
  end.

End Shape.
Import Shape.

(** ** Bracket spans in the words of the specification *)

Module Wellformed.




(** A text with no bracket, and a text that holds a line break. *)
Definition bracket_free (s : jsstring) : Prop := (LBRACKET ∉ s) /\ (RBRACKET ∉ s).

Definition line_break (s : jsstring) : Prop :=
  Exists (fun x => isLineTerminator x = true) s.

(** A text with no bracket and no line break. *)
Definition plain (g : jsstring) : Prop :=
  Forall (fun x => x <> LBRACKET /\ x <> RBRACKET /\ isLineTerminator x = false) g.

(** The text [B], standing after [pre] in the transcript, lies inside one
    literal text of the division [l], [tail] into spans: the text before a
    span, or the text after the last one. *)
Definition in_literal (B pre : jsstring) (l : list (jsstring * jsstring)) (tail : jsstring)
  : Prop :=
  (exists l1 g l2 x y, l = l1 ++ (x ++ B ++ y, g) :: l2 /\ bracketed l1 x = pre)
  \/ (exists x y, tail = x ++ B ++ y /\ bracketed l x = pre).

(** The parser leaves the text [B] of the transcript [pre ++ B ++ post] as
    literal text: [B] lies inside one literal text of the transcript's
    division into spans, so that one literal token of the result holds it. *)
Definition left_literal (B pre post : jsstring) : Prop :=
  exists l tail,
    spans (pre ++ B ++ post) l tail
    /\ parse (pre ++ B ++ post) = Some (span_tokens 0 l ++ tail_tokens tail, map snd l)
    /\ in_literal B pre l tail
    /\ exists x y, Lit (x ++ B ++ y) ∈ span_tokens 0 l ++ tail_tokens tail.

(** A line break stands between a text and every closing bracket of [post],
    the text after it; and between the text and every opening bracket of
    [t], the text before it. *)
Definition closed_after (post : jsstring) : Prop :=
  forall a b, post = a ++ RBRACKET :: b -> line_break a.

Definition closed_before (t : jsstring) : Prop :=
  forall u w, t = u ++ LBRACKET :: w -> line_break w.

End Wellformed.
Import Wellformed.

(** ** Properties of the matcher *)

Section Matcher.

Lemma lazy_until_close_Some s g :
  lazy_until_close s = Some g ->
  exists rest, s = g ++ RBRACKET :: rest
    /\ forallb (fun x => negb (x =? RBRACKET) && negb (isLineTerminator x)) g = true.
Proof.
  revert g. induction s as [|c r IH]; intros g; simpl; [done|].
  destruct (N.eqb_spec c RBRACKET) as [->|Hc].
  - intros [= <-]. by exists r.
  - destruct (isLineTerminator c) eqn:Hlt; [done|].
    intros (g' & Hg' & ->)%fmap_Some.
    destruct (IH _ Hg') as (rest & -> & Hall).
    exists rest. split; [done|]. simpl.
    rewrite Hlt, Hall. by apply N.eqb_neq in Hc as ->.
Qed.

Lemma lazy_until_close_complete g rest :
  forallb (fun x => negb (x =? RBRACKET) && negb (isLineTerminator x)) g = true ->
  lazy_until_close (g ++ RBRACKET :: rest) = Some g.
Proof.
  induction g as [|c g IH]; simpl.
  - done.
  - intros [[Hc Hlt]%andb_prop Hall]%andb_prop.
    apply negb_true_iff in Hc, Hlt. rewrite Hc, Hlt, IH by done. done.
Qed.

Lemma match_at_Some s g :
  match_at s = Some g ->
  exists rest, s = LBRACKET :: g ++ RBRACKET :: rest /\ span_content g = true.
Proof.
  destruct s as [|c0 [|c1 r]]; simpl; [done..|].
  destruct (N.eqb_spec c0 LBRACKET) as [->|]; [|done].
  destruct (isLineTerminator c1) eqn:Hlt; simpl; [done|].
  intros (g' & Hg' & ->)%fmap_Some.
  destruct (lazy_until_close_Some _ _ Hg') as (rest & -> & Hall).
  exists rest. split; [done|]. simpl. by rewrite Hlt, Hall.
Qed.

Lemma match_at_complete g rest :
  span_content g = true ->
  match_at (LBRACKET :: g ++ RBRACKET :: rest) = Some g.
Proof.
  destruct g as [|c g]; simpl; [done|].
  intros [Hlt Hall]%andb_prop. apply negb_true_iff in Hlt.
  rewrite Hlt. simpl. by rewrite lazy_until_close_complete.
Qed.

Lemma match_at_starts_span s : is_Some (match_at s) <-> starts_span s.
Proof.
  split.
  - intros [g (rest & -> & Hg)%match_at_Some]. by exists g, rest.
  - intros (g & rest & Hg & ->). rewrite match_at_complete by done. eauto.
Qed.

Lemma match_at_None s : match_at s = None <-> ~ starts_span s.
Proof. rewrite <-match_at_starts_span, eq_None_not_Some. done. Qed.

(** The content of the span at the head of a string is determined. *)
Lemma span_content_unique g1 rest1 g2 rest2 :
  span_content g1 = true -> span_content g2 = true ->
  g1 ++ RBRACKET :: rest1 = g2 ++ RBRACKET :: rest2 ->
  g1 = g2 /\ rest1 = rest2.
Proof.
  intros H1 H2 Heq.
  pose proof (match_at_complete g1 rest1 H1) as M1.
  pose proof (match_at_complete g2 rest2 H2) as M2.
  rewrite Heq in M1. rewrite M1 in M2. injection M2 as ->.
  split; [done|]. by simplify_list_eq.
Qed.

Lemma search_Some s i j g :
  search s i = Some (j, g) ->
  exists k, j = (i + k)%nat /\ (k <= length s)%nat
    /\ match_at (drop k s) = Some g
    /\ forall k', (k' < k)%nat -> match_at (drop k' s) = None.
Proof.
  revert i. induction s as [|c r IH]; intros i.
  - simpl. done.
  - cbn [search]. destruct (match_at (c :: r)) as [g0|] eqn:Hm.
    + intros [= <- <-]. exists 0%nat. rewrite Nat.add_0_r.
      repeat split; [lia|done|lia].
    + intros (k & -> & Hk & Hmk & Hlt)%IH.
      exists (S k). repeat split; [lia|simpl; lia|done|].
      intros [|k'] ?; [done|]. apply Hlt. lia.
Qed.

Lemma search_None s i :
  search s i = None -> forall k, match_at (drop k s) = None.
Proof.
  revert i. induction s as [|c r IH]; intros i.
  - intros _ k. by rewrite drop_nil.
  - cbn [search]. destruct (match_at (c :: r)) as [g0|] eqn:Hm; [done|].
    intros Hs [|k]; [done|]. simpl. by eapply IH.
Qed.

End Matcher.

(** ** The loop computes the spans *)

Section Loop.

Lemma exec_Some T li index g li' :
  (li <= length T)%nat ->
  exec li T = (Some (index, g), li') ->
  (li <= index)%nat /\ li' = (index + (length g + 2))%nat /\ (li' <= length T)%nat
  /\ span_content g = true
  /\ drop li T = slice T li index ++ LBRACKET :: g ++ RBRACKET :: drop li' T
  /\ length (slice T li index) = (index - li)%nat
  /\ forall k, (k < index - li)%nat -> ~ starts_span (drop k (drop li T)).
Proof.
  intros Hli. unfold exec.
  destruct (search (drop li T) li) as [[j g0]|] eqn:Hs; [|done].
  intros [= -> -> <-].
  apply search_Some in Hs as (k & -> & Hk & Hm & Hno).
  destruct (match_at_Some _ _ Hm) as (rest & Hdrop & Hg).
  rewrite length_drop in Hk.
  assert (Hlen : (length T - (li + k) = S (length g + S (length rest)))%nat).
  { rewrite <-length_drop, <-drop_drop, Hdrop. simpl.
    rewrite length_app. simpl. done. }
  assert (Hrest : drop (li + k + (length g + 2)) T = rest).
  { rewrite <-drop_drop, <-(drop_drop T k li), Hdrop.
    replace (length g + 2)%nat with (S (length g + 1)) by lia. simpl.
    rewrite <-drop_drop, drop_app_length. done. }
  unfold slice. replace (li + k - li)%nat with k by lia.
  repeat split; [lia|lia|done| | |].
  - rewrite Hrest, <-Hdrop. by rewrite take_drop.
  - rewrite length_take, length_drop. lia.
  - intros k' Hk'. apply match_at_None, Hno, Hk'.
Qed.

Lemma exec_None T li n :
  exec li T = (None, n) -> forall k, ~ starts_span (drop k (drop li T)).
Proof.
  unfold exec. destruct (search (drop li T) li) as [[j g0]|] eqn:Hs; [done|].
  intros _ k. eapply match_at_None, search_None, Hs.
Qed.

Lemma spans_length s l tail :
  spans s l tail -> (length l + length tail <= length s)%nat.
Proof.
  induction 1 as [|lit g rest l tail _ _ _ IH]; simpl; [lia|].
  rewrite length_app. simpl. rewrite length_app. simpl. lia.
Qed.

(** From a state whose two cursors agree at [li], the loop ends with the
    tokens and blanks of the spans of the rest of the transcript. *)
Lemma loop_spans fuel T st :
  st_regex_lastIndex st = st_lastIndex st ->
  (st_lastIndex st <= length T)%nat ->
  (length T - st_lastIndex st < fuel)%nat ->
  exists l tail st',
    spans (drop (st_lastIndex st) T) l tail
    /\ loop fuel T st = Some st'
    /\ st_tokens st' = st_tokens st ++ span_tokens (length (st_blanks st)) l
    /\ st_blanks st' = st_blanks st ++ map snd l
    /\ (st_lastIndex st' <= length T)%nat
    /\ drop (st_lastIndex st') T = tail.
Proof.
  revert st. induction fuel as [|fuel IH]; intros st Hre Hli Hfuel; [lia|].
  cbn [loop]. rewrite Hre.
  destruct (exec (st_lastIndex st) T) as [[[index g]|] li'] eqn:Hex.
  - destruct (exec_Some _ _ _ _ _ Hli Hex)
      as (Hle & -> & Hli' & Hg & Hdrop & Hlen & Hno).
    set (st1 := body T st index g (index + (length g + 2))).
    destruct (IH st1) as (l & tail & st' & Hsp & Hloop & Htok & Hbl & Hle' & Htail);
      [done|done|simpl; lia|].
    exists ((slice T (st_lastIndex st) index, g) :: l), tail, st'.
    split; [|split; [done|]].
    { rewrite Hdrop. constructor; [done| |done].
      intros k Hk. rewrite <-Hdrop. apply Hno. lia. }
    repeat split; [| |done..].
    + rewrite Htok. subst st1. cbn [body st_tokens st_blanks].
      rewrite length_app. cbn [length span_tokens].
      replace (length (st_blanks st) + 1)%nat with (S (length (st_blanks st))) by lia.
      destruct (slice T (st_lastIndex st) index) as [|c lit] eqn:Hlit.
      * simpl in Hlen.
        destruct (Nat.ltb_spec (st_lastIndex st) index); [lia|].
        by rewrite <-app_assoc.
      * simpl in Hlen.
        destruct (Nat.ltb_spec (st_lastIndex st) index); [|lia].
        by rewrite <-!app_assoc.
    + rewrite Hbl. subst st1. cbn [body st_blanks]. by rewrite <-app_assoc.
  - exists [], (drop (st_lastIndex st) T), st.
    split; [constructor; by eapply exec_None|].
    simpl. by rewrite !app_nil_r.
Qed.

(** With more fuel than the transcript is long, the loop ends, and what
    follows it returns the tokens and blanks of the spans of the
    transcript. *)
Lemma loop_finish fuel T :
  (length T < fuel)%nat ->
  exists l tail,
    spans T l tail
    /\ finish T <$> loop fuel T init
       = Some (span_tokens 0 l ++ tail_tokens tail, map snd l).
Proof.
  intros Hfuel.
  destruct (loop_spans fuel T init)
    as (l & tail & st' & Hsp & Hloop & Htok & Hbl & Hle & Htail);
    [done|simpl; lia|simpl; lia|].
  exists l, tail. split; [done|].
  rewrite Hloop. simpl. unfold finish, slice_from.
  rewrite Htok, Hbl, Htail. simpl. do 2 f_equal.
  assert (Hlen : length tail = (length T - st_lastIndex st')%nat)
    by (by rewrite <-Htail, length_drop).
  destruct tail; simpl in Hlen;
    destruct (Nat.ltb_spec (st_lastIndex st') (length T));
    simpl; rewrite ?app_nil_r; (done || lia).
Qed.

Lemma parse_spans T :
  exists l tail,
    spans T l tail
    /\ parse T = Some (span_tokens 0 l ++ tail_tokens tail, map snd l).
Proof. apply loop_finish. lia. Qed.

Lemma parse_is_Some T : exists tokens blanks, parse T = Some (tokens, blanks).
Proof. destruct (parse_spans T) as (l & tail & _ & Hparse). eauto. Qed.

End Loop.

(** ** Properties of the spans *)

Section SpansFacts.

Variable w : jsstring -> jsstring.

Lemma expand_span_tokens l pre :
  expand w (span_tokens (length pre) l) (pre ++ map snd l)
  = concat (map (fun p => fst p ++ w (snd p)) l).
Proof.
  revert pre. induction l as [|[lit g] l IH]; intros pre; [done|].
  cbn [span_tokens map fst snd concat]. unfold expand in *.
  rewrite map_app, concat_app. cbn [map concat expand_token].
  rewrite list_lookup_middle by done. cbn [default].
  specialize (IH (pre ++ [g])).
  rewrite length_app, <-app_assoc in IH. cbn [length app] in IH.
  rewrite Nat.add_1_r in IH. rewrite IH, <-app_assoc.
  by destruct lit; simpl; rewrite ?app_nil_r.
Qed.

Lemma expand_parsed l tail :
  expand w (span_tokens 0 l ++ tail_tokens tail) (map snd l)
  = concat (map (fun p => fst p ++ w (snd p)) l) ++ tail.
Proof.
  unfold expand. rewrite map_app, concat_app.
  pose proof (expand_span_tokens l []) as H. unfold expand in H.
  cbn [length app] in H. rewrite H. f_equal.
  by destruct tail; simpl; rewrite ?app_nil_r.
Qed.

End SpansFacts.

Lemma render_parsed l tail :
  render (span_tokens 0 l ++ tail_tokens tail) (map snd l) = bracketed l tail.
Proof. exact (expand_parsed (fun a => [LBRACKET] ++ a ++ [RBRACKET]) l tail). Qed.


Lemma spans_bracketed s l tail :
  spans s l tail -> bracketed l tail = s.
Proof.
  unfold bracketed.
  induction 1 as [|lit g rest l tail _ _ _ IH]; [done|].
  cbn [map concat fst snd]. rewrite <-IH.
  by rewrite <-!app_assoc.
Qed.

Lemma spans_content s l tail :
  spans s l tail -> Forall (fun g => span_content g = true) (map snd l).
Proof. induction 1; simpl; by constructor. Qed.


(** A string has one division into spans only. *)
Lemma spans_unique s l1 tail1 l2 tail2 :
  spans s l1 tail1 -> spans s l2 tail2 -> l1 = l2 /\ tail1 = tail2.
Proof.
  intros H1. revert l2 tail2.
  induction H1 as [s Hno|lit g rest l tail Hg Hno _ IH]; intros l2 tail2 H2.
  - inversion H2 as [|lit' g' rest' l' tail' Hg' _ _ Heq]; subst; [done|].
    exfalso. apply (Hno (length lit')).
    rewrite drop_app_length. by exists g', rest'.
  - inversion H2 as [s' Hno' Heq|lit' g' rest' l' tail' Hg' Hno' Hsp' Heq]; subst.
    + exfalso. apply (Hno' (length lit)).
      rewrite drop_app_length. by exists g, rest.
    + assert (length lit = length lit') as Hlen.
      { destruct (Nat.lt_trichotomy (length lit) (length lit')) as [Hlt|[?|Hlt]];
          [|done|]; exfalso.
        - apply (Hno' _ Hlt). rewrite Heq, drop_app_length. by exists g, rest.
        - apply (Hno _ Hlt). rewrite <-Heq, drop_app_length. by exists g', rest'. }
      apply app_inj_1 in Heq as [-> [= Heq]]; [|done].
      destruct (span_content_unique _ _ _ _ Hg' Hg Heq) as [-> ->].
      destruct (IH _ _ Hsp') as [-> ->]. done.
Qed.

(** An end of the string that holds no closing bracket lies in the text after
    the last span. *)
Lemma spans_no_close_suffix s l tail pre post :
  spans s l tail -> s = pre ++ post -> RBRACKET ∉ post ->
  exists x, tail = x ++ post.
Proof.
  intros Hsp. revert pre.
  induction Hsp as [s _|lit g rest l tail _ _ _ IH]; intros pre Heq Hno; [by eauto|].
  change (lit ++ LBRACKET :: g ++ RBRACKET :: rest)
    with (lit ++ (LBRACKET :: g) ++ [RBRACKET] ++ rest) in Heq.
  rewrite !app_assoc in Heq.
  apply app_eq_app in Heq as [x [[Hl1 Hpost]|[_ Hrest]]]; [|by eapply IH].
  destruct x as [|y x _] using rev_ind.
  - apply (IH []); [|done]. by rewrite Hpost.
  - rewrite app_assoc in Hl1. apply app_inj_tail in Hl1 as [_ <-].
    exfalso. apply Hno. rewrite Hpost. set_solver.
Qed.

(** ** Transcripts in which the pattern finds nothing *)

Section NoMatch.

Lemma lazy_until_close_no_close s :
  RBRACKET ∉ s -> lazy_until_close s = None.
Proof.
  induction s as [|c r IH]; [done|].
  intros [Hc Hr]%not_elem_of_cons. cbn [lazy_until_close].
  apply not_eq_sym, N.eqb_neq in Hc. rewrite Hc, IH by done.
  by destruct (isLineTerminator c).
Qed.

Lemma lazy_until_close_line_break c s :
  RBRACKET ∉ c -> Exists (fun x => isLineTerminator x = true) c ->
  lazy_until_close (c ++ s) = None.
Proof.
  induction c as [|x c IH]; intros Hno Hex; [by inversion Hex|].
  apply not_elem_of_cons in Hno as [Hx Hc]. cbn [app lazy_until_close].
  apply not_eq_sym, N.eqb_neq in Hx. rewrite Hx.
  destruct (isLineTerminator x) eqn:Hlt; [done|].
  inversion Hex as [? ? Hx'|? ? Hc']; subst; [congruence|].
  by rewrite IH.
Qed.

Lemma match_at_not_open c s : c <> LBRACKET -> match_at (c :: s) = None.
Proof.
  intros Hc%N.eqb_neq. destruct s; simpl; [done|]. by rewrite Hc.
Qed.

Lemma search_cons_None c s i :
  match_at (c :: s) = None -> search (c :: s) i = search s (S i).
Proof. intros H. cbn [search]. by rewrite H. Qed.

Lemma search_skip l s i :
  LBRACKET ∉ l -> search (l ++ s) i = search s (i + length l).
Proof.
  revert i. induction l as [|c l IH]; intros i Hl; simpl app.
  - by rewrite Nat.add_0_r.
  - apply not_elem_of_cons in Hl as [Hc Hl].
    cbn [search]. rewrite match_at_not_open by done.
    rewrite IH by done. f_equal. simpl. lia.
Qed.

Lemma search_no_close s i : RBRACKET ∉ s -> search s i = None.
Proof.
  revert i. induction s as [|c r IH]; intros i Hs; [done|].
  apply not_elem_of_cons in Hs as [Hc Hr].
  cbn [search]. rewrite IH by done.
  destruct r as [|c1 r]; [done|]. simpl.
  apply not_elem_of_cons in Hr as [_ Hr].
  rewrite lazy_until_close_no_close by done.
  by destruct ((c =? LBRACKET) && negb (isLineTerminator c1)).
Qed.

Lemma parse_no_match T :
  search T 0 = None -> parse T = Some (tail_tokens T, []).
Proof.
  intros Hs. unfold parse. cbn [loop init st_regex_lastIndex].
  unfold exec. rewrite drop_0, Hs. simpl. unfold finish, slice_from. simpl.
  rewrite ?drop_0. by destruct T.
Qed.

End NoMatch.

(** ** The parser: results *)

Example parse_empty : parse (js "") = Some ([], []).
Proof. reflexivity. Qed.

Example parse_no_bracket : parse (js "plain text") = Some ([Lit (js "plain text")], []).
Proof. reflexivity. Qed.

Example parse_adjacent : parse (js "[a][b]") = Some ([Blank 0; Blank 1], [js "a"; js "b"]).
Proof. reflexivity. Qed.

Example parse_unclosed : parse (js "see [this") = Some ([Lit (js "see [this")], []).
Proof. reflexivity. Qed.

Example parse_sentence :
  parse (js "City parks provide vital [amenities] for residents.")
  = Some ([Lit (js "City parks provide vital "); Blank 0; Lit (js " for residents.")],
          [js "amenities"]).
Proof. reflexivity. Qed.

(** C3. Parser round trip: rendering the result of [parse] (literal tokens as
    they are, each blank's answer put back between brackets, in token order)
    gives the transcript again. It holds for every transcript, so in
    particular for those whose bracket spans are well formed. *)
Theorem parser_round_trip (T : jsstring) :
  exists tokens blanks,
    parse T = Some (tokens, blanks) /\ render tokens blanks = T.
Proof.
  destruct (parse_spans T) as (l & tail & Hsp & Hparse).
  eexists _, _. split; [exact Hparse|].
  rewrite render_parsed. by apply spans_bracketed.
Qed.

(** The content of a recognized span can hold an opening bracket, and the
    text before a closing bracket can hold an opening bracket that is never
    closed. *)
Lemma span_with_bracket_inside :
  parse (js "[a[b]") = Some ([Blank 0], [js "a[b"])
  /\ LBRACKET ∈ js "a[b".
Proof. split; [reflexivity|decide_mem]. Qed.

(** C4, amended. Scanning from left to right, each recognized span is an
    opening bracket, a content and a closing bracket, where the content is
    not empty, holds no line terminator and holds no closing bracket after
    its first character: the match ends at the first closing bracket that
    follows the first character of the content. The content may hold
    opening brackets. An end of the transcript that holds no closing bracket
    is part of the literal text after the last span, and a transcript with
    no opening bracket, or with no closing bracket, is literal text only. *)
Theorem span_matching_rule (T : jsstring) :
  exists tokens blanks l tail,
    parse T = Some (tokens, blanks)
    /\ spans T l tail
    /\ tokens = span_tokens 0 l ++ tail_tokens tail
    /\ blanks = map snd l
    /\ Forall (fun g => span_content g = true) blanks
    /\ (forall pre post, T = pre ++ post -> RBRACKET ∉ post -> exists x, tail = x ++ post)
    /\ (LBRACKET ∉ T \/ RBRACKET ∉ T -> tokens = tail_tokens T /\ blanks = []).
Proof.
  destruct (parse_spans T) as (l & tail & Hsp & Hparse).
  eexists _, _, l, tail. split; [exact Hparse|].
  split; [done|]. split; [done|]. split; [done|].
  split; [by eapply spans_content|].
  split; [intros pre post; exact (spans_no_close_suffix _ _ _ pre post Hsp)|].
  intros Hno.
  assert (search T 0 = None) as Hs.
  { destruct Hno as [Hno|Hno]; [|by apply search_no_close].
    rewrite <-(app_nil_r T). by rewrite search_skip. }
  apply parse_no_match in Hs. rewrite Hs in Hparse.
  by injection Hparse as <- <-.
Qed.

Lemma span_matching_rule_witness :
  exists tokens blanks l tail,
    parse (js "[a] and [b") = Some (tokens, blanks)
    /\ spans (js "[a] and [b") l tail
    /\ tokens = span_tokens 0 l ++ tail_tokens tail
    /\ blanks = map snd l
    /\ Forall (fun g => span_content g = true) blanks
    /\ (exists x, tail = x ++ js "[b").
Proof.
  destruct (span_matching_rule (js "[a] and [b"))
    as (tokens & blanks & l & tail & H1 & H2 & H3 & H4 & H5 & H6 & _).
  exists tokens, blanks, l, tail. repeat (split; [assumption|]).
  apply (H6 (js "[a] and ")); [reflexivity|decide_mem].
Defined.

Example parse_then_unclosed :
  parse (js "[a] and [b") = Some ([Blank 0; Lit (js " and [b")], [js "a"]).
Proof. reflexivity. Qed.

(** An empty pair of brackets followed by a bracketed answer is not left as
    literal text: the pattern takes its closing bracket as the first
    character of a content that runs to the next closing bracket. *)
Lemma empty_pair_then_span :
  parse (js "[][a]") = Some ([Blank 0], [js "][a"])
  /\ parse (js "[]]") = Some ([Blank 0], [js "]"]).
Proof. split; reflexivity. Qed.

(** ** Grading *)

Section Grading.

Context `{Platform}.

Lemma isCorrect_Normal answers q i :
  (i < blanksCount q)%nat -> exists v, isCorrect answers q i = Normal v.
Proof.
  intros [b Hb]%lookup_lt_is_Some_2. unfold isCorrect. rewrite Hb.
  destruct (answers !! i) as [[|c a]|]; eauto.
Qed.

(** The loop of [handleCheck] reads blanks below [blanksCount] only, so it
    cannot raise, and it counts at most one per blank. *)
Lemma count_correct_Normal answers q n i c :
  (i + n <= blanksCount q)%nat ->
  exists c', count_correct answers q n i c = Normal c' /\ (c <= c' <= c + n)%nat.
Proof.
  revert i c. induction n as [|n IH]; intros i c Hle; simpl.
  - exists c. split; [done|lia].
  - destruct (isCorrect_Normal answers q i) as [v ->]; [lia|].
    destruct (IH (S i) (if ToBoolean v then S c else c)) as (c' & -> & Hc'); [lia|].
    exists c'. split; [done|]. destruct (ToBoolean v); lia.
Qed.

Lemma handleCheck_Normal q st :
  exists c, handleCheck q st
            = Normal {| answers := answers st; checked := true; score := c;
                        timeLeft := timeLeft st |}
            /\ (c <= blanksCount q)%nat.
Proof.
  unfold handleCheck.
  destruct (count_correct_Normal (answers st) q (blanksCount q) 0 0) as (c & -> & Hc);
    [lia|].
  exists c. split; [done|lia].
Qed.

(** C5. Grading: at a blank index [i], [isCorrect] returns a truthy value
    exactly when the user's entry at [i] is present and not empty and,
    after trimming and lower-casing both sides, equals the expected answer
    at [i]; a missing or empty entry is never correct. *)
Theorem grading_rule answers q i b :
  q_blanks q !! i = Some b ->
  exists v,
    isCorrect answers q i = Normal v
    /\ (ToBoolean v = true <->
        exists a, answers !! i = Some a /\ a <> []
                  /\ toLowerCase (trim a) = toLowerCase (trim b))
    /\ (answers !! i = None \/ answers !! i = Some [] -> ToBoolean v = false).
Proof.
  intros Hb. unfold isCorrect. rewrite Hb.
  destruct (answers !! i) as [[|c a]|] eqn:Ha.
  - exists (Str []). split; [done|]. split; [|done].
    split; [done|]. by intros (a & [= <-] & ? & _).
  - eexists. split; [done|]. split.
    + simpl. rewrite bool_decide_eq_true. split.
      * intros Heq. by exists (c :: a).
      * by intros (a' & [= <-] & _ & Heq).
    + by intros [|].
  - exists Undefined. split; [done|]. split; [|done].
    split; [done|]. by intros (a & ? & _).
Qed.

(** C6. The check is guarded by [checked]: once [checked] is true, neither
    the button nor the timer's expiry calls [handleCheck], and the session
    (answers, [checked], score and time left) stays as it is. *)
Theorem check_guarded q st :
  checked st = true ->
  checkButton q st = Normal st /\ expiryEffect q st = Normal st.
Proof.
  intros Hc. unfold checkButton, expiryEffect. rewrite Hc.
  by rewrite andb_false_r.
Qed.

End Grading.

(** [handleCheck] itself has no guard: called on a checked session it
    computes the score again. *)
Example handleCheck_unguarded :
  let st := handleShowAnswers SAMPLE_Q1 (handleReset SAMPLE_Q1 initial) in
  checked st = true /\ score st = 0%nat
  /\ exists st', handleCheck (H := ascii_platform) SAMPLE_Q1 st = Normal st'
                 /\ score st' = 2%nat.
Proof.
  split; [reflexivity|]. split; [reflexivity|].
  eexists. split; [vm_compute; reflexivity|reflexivity].
Qed.

(** ** Revealing the answers *)

Lemma foldl_insert_imap (l : list jsstring) (n : nat) (m : gmap nat jsstring) (i : nat) :
  foldl (fun filled p => <[p.1 := p.2]> filled) m (imap (fun j a => ((n + j)%nat, a)) l) !! i
  = if decide (n <= i < n + length l)%nat then l !! (i - n)%nat else m !! i.
Proof.
  revert n m. induction l as [|x l IH]; intros n m.
  - simpl. case_decide; [lia|done].
  - rewrite imap_cons. cbn [foldl fst snd].
    rewrite (imap_ext _ (fun j a => ((S n + j)%nat, a))) by (intros; simpl; f_equal; lia).
    rewrite IH. cbn [length]. rewrite Nat.add_0_r.
    repeat case_decide; try lia.
    + by replace (i - n)%nat with (S (i - S n)) by lia.
    + assert (i = n) as -> by lia. by rewrite lookup_insert_eq, Nat.sub_diag.
    + rewrite lookup_insert_ne by lia. done.
Qed.

Lemma filled_lookup (blanks : list jsstring) (i : nat) :
  filled blanks !! i = blanks !! i.
Proof.
  unfold filled.
  change (imap pair blanks) with (imap (fun j a => ((0 + j)%nat, a)) blanks).
  rewrite foldl_insert_imap. case_decide.
  - by rewrite Nat.sub_0_r.
  - rewrite lookup_empty. symmetry. apply lookup_ge_None_2. lia.
Qed.

(** From a fresh session of the sample question, revealing the answers leaves
    the score at 0 although the question has two blanks. *)
Lemma reveal_keeps_score :
  let st := handleShowAnswers SAMPLE_Q1 (handleReset SAMPLE_Q1 initial) in
  checked st = true /\ score st = 0%nat /\ blanksCount SAMPLE_Q1 = 2%nat.
Proof. repeat split. Qed.

(** C1, amended. After [handleShowAnswers], the entry of [answers] at every
    index is the expected answer at that index as it is written (and there
    is no entry where there is no blank), [checked] is true, and the score
    and the time left are what they were: the score is not computed again,
    neither by the handler nor by the timer's effect. *)
Theorem reveal_answers `{Platform} (q : Question) (st : session) (i : nat) :
  let st' := handleShowAnswers q st in
  answers st' !! i = q_blanks q !! i
  /\ checked st' = true
  /\ score st' = score st
  /\ timeLeft st' = timeLeft st
  /\ expiryEffect q st' = Normal st'.
Proof.
  simpl. split; [apply filled_lookup|]. repeat split.
  unfold expiryEffect. simpl. by rewrite andb_false_r.
Qed.

(** ** Grading on examples, with the ASCII case mapping *)

Example grading_paris :
  let q := {| q_id := js "q"; q_title := None; q_audioUrl := None;
              q_timeLimitSec := None; q_tokens := [Blank 0; Blank 1];
              q_blanks := [js "Paris"; js "5"] |} in
  let st := typeAnswer 1 (js "5") (typeAnswer 0 (js " paris ") (handleReset q initial)) in
  isCorrect (H := ascii_platform) (answers st) q 0 = Normal (Bool true)
  /\ isCorrect (H := ascii_platform) (answers st) q 1 = Normal (Bool true)
  /\ exists st', handleCheck (H := ascii_platform) q st = Normal st'
                 /\ score st' = 2%nat /\ checked st' = true.
Proof.
  split; [vm_compute; reflexivity|]. split; [vm_compute; reflexivity|].
  eexists. split; [vm_compute; reflexivity|]. split; reflexivity.
Qed.

Example grading_sample :
  let st := typeAnswer 1 (js "Exercise") (typeAnswer 0 (js "amenities")
              (handleReset SAMPLE_Q1 initial)) in
  exists st', handleCheck (H := ascii_platform) SAMPLE_Q1 st = Normal st'
              /\ score st' = 2%nat /\ checked st' = true.
Proof. eexists. split; [vm_compute; reflexivity|]. split; reflexivity. Qed.

Example grading_empty_or_absent :
  isCorrect (H := ascii_platform) {[ 1%nat := js "" ]} SAMPLE_Q1 1 = Normal (Str [])
  /\ isCorrect (H := ascii_platform) ∅ SAMPLE_Q1 1 = Normal Undefined.
Proof. split; reflexivity. Qed.

Lemma grading_rule_witness :
  q_blanks SAMPLE_Q1 !! 1%nat = Some (js "exercise")
  /\ exists v,
       isCorrect (H := ascii_platform) {[ 1%nat := js "EXERCISE  " ]} SAMPLE_Q1 1 = Normal v
       /\ ToBoolean v = true.
Proof.
  split; [reflexivity|].
  destruct (grading_rule (H := ascii_platform) {[ 1%nat := js "EXERCISE  " ]} SAMPLE_Q1 1
              (js "exercise") eq_refl) as (v & Hv & Hiff & _).
  exists v. split; [exact Hv|].
  apply Hiff. exists (js "EXERCISE  ").
  split; [reflexivity|]. split; [discriminate|]. vm_compute. reflexivity.
Defined.

Lemma check_guarded_witness :
  let st := handleShowAnswers SAMPLE_Q1 (handleReset SAMPLE_Q1 initial) in
  checked st = true
  /\ checkButton (H := ascii_platform) SAMPLE_Q1 st = Normal st
  /\ expiryEffect (H := ascii_platform) SAMPLE_Q1 st = Normal st.
Proof.
  split; [reflexivity|].
  apply (check_guarded (H := ascii_platform) SAMPLE_Q1
           (handleShowAnswers SAMPLE_Q1 (handleReset SAMPLE_Q1 initial))).
  reflexivity.
Defined.

(** ** The question store *)

Lemma js_inj (s1 s2 : string) : js s1 = js s2 -> s1 = s2.
Proof.
  unfold js. intros Heq.
  rewrite <-(string_of_list_ascii_of_string s1), <-(string_of_list_ascii_of_string s2).
  f_equal. revert Heq.
  generalize (list_ascii_of_string s1) (list_ascii_of_string s2).
  induction l as [|a l IH]; intros [|b l']; simpl; try done.
  intros [= Hab Hl]. f_equal; [|by apply IH].
  by rewrite <-(ascii_N_embedding a), <-(ascii_N_embedding b), Hab.
Qed.

Lemma number_to_string_inj (a b : Z) : number_to_string a = number_to_string b -> a = b.
Proof.
  intros Heq%js_inj.
  assert (Some (Z.to_int a) = Some (Z.to_int b)) as [= Hint]
    by (by rewrite <-!NilEmpty.isi, Heq).
  by rewrite <-(DecimalZ.of_to a), <-(DecimalZ.of_to b), Hint.
Qed.

Lemma timestamp_id_inj (a b : Z) : timestamp_id a = timestamp_id b -> a = b.
Proof. unfold timestamp_id. intros [= Heq]. by apply number_to_string_inj. Qed.

(** Two questions added at the same millisecond get the same [id]. *)
Lemma add_same_timestamp :
  let d := {| d_title := Some (js "Parks"); d_transcript := js "Parks give [shade].";
              d_audioUrl := Some (js "a.mp3"); d_timeLimitSec := Some 90%Z |} in
  map q_id <$> (addQuestion 1700000000000 SAMPLE_QUESTIONS d
                  ≫= fun questions => addQuestion 1700000000000 questions d)
  = Some [js "q1"; js "q1700000000000"; js "q1700000000000"].
Proof. vm_compute. reflexivity. Qed.

(** C9, amended. [addQuestion] returns, and the collection it saves is the
    old one with one question appended at the end; the [id] of that question
    is the letter q followed by the numeral of the creation time in
    milliseconds. The [id] differs from every [id] already in the collection
    when each of these is the numeral of another time; nothing compares it
    with the ids present. *)
Theorem add_appends (now : Z) (questions : list Question) (d : Draft) :
  exists tokens blanks newQ,
    parse (d_transcript d) = Some (tokens, blanks)
    /\ addQuestion now questions d = Some (questions ++ [newQ])
    /\ newQ = {| q_id := timestamp_id now;
                 q_title := or_else (d_title d) (Some (js "Custom question"));
                 q_audioUrl := d_audioUrl d;
                 q_timeLimitSec := d_timeLimitSec d;
                 q_tokens := tokens;
                 q_blanks := blanks |}
    /\ (Forall (fun q => exists t, t <> now /\ q_id q = timestamp_id t) questions ->
        q_id newQ ∉ map q_id questions).
Proof.
  destruct (parse_is_Some (d_transcript d)) as (tokens & blanks & Hparse).
  eexists tokens, blanks, _. split; [done|].
  unfold addQuestion. rewrite Hparse. simpl. split; [done|]. split; [done|].
  intros Hall. cbn [q_id]. intros (q & Hq & Hin)%list_elem_of_fmap.
  rewrite Forall_forall in Hall.
  destruct (Hall _ Hin) as (t & Hne & Ht).
  rewrite Ht in Hq. by apply timestamp_id_inj in Hq.
Qed.

Lemma add_appends_witness :
  let d := {| d_title := Some (js "Parks"); d_transcript := js "Parks give [shade].";
              d_audioUrl := Some (js "a.mp3"); d_timeLimitSec := Some 90%Z |} in
  exists tokens blanks newQ,
    parse (d_transcript d) = Some (tokens, blanks)
    /\ addQuestion 1700000000000 SAMPLE_QUESTIONS d = Some (SAMPLE_QUESTIONS ++ [newQ])
    /\ q_id newQ = js "q1700000000000"
    /\ q_id newQ ∉ map q_id SAMPLE_QUESTIONS.
Proof.
  intros d.
  destruct (add_appends 1700000000000 SAMPLE_QUESTIONS d)
    as (tokens & blanks & newQ & H1 & H2 & H3 & H4).
  exists tokens, blanks, newQ. split; [assumption|]. split; [assumption|].
  split; [by rewrite H3|].
  apply H4. repeat constructor. by exists 1%Z.
Defined.




(** ** The initial collection *)

(** A stored text that [JSON.parse] rejects: the initialiser raises. *)
Lemma init_unparseable_raises :
  (forall JSON_parse,
      JSON_parse (js "{") = Throw SyntaxError ->
      initQuestions JSON_parse (Some (js "{")) = Throw SyntaxError)
  /\ (Throw SyntaxError : completion (list Question)) <> Normal SAMPLE_QUESTIONS.
Proof. split; [by intros JSON_parse|done]. Qed.

(** C2, amended. When the storage key is absent, or holds the empty string,
    the initial collection is the built-in sample collection, which has one
    question. When it holds any other text, the initial collection is what
    [JSON.parse] makes of the text: a well-formed stored collection is
    loaded, and an error raised by [JSON.parse] is the outcome of the
    initialiser, which does not catch it. *)
Theorem init_questions_rule (JSON_parse : jsstring -> completion (list Question)) :
  initQuestions JSON_parse None = Normal SAMPLE_QUESTIONS
  /\ initQuestions JSON_parse (Some []) = Normal SAMPLE_QUESTIONS
  /\ (forall c s, initQuestions JSON_parse (Some (c :: s)) = JSON_parse (c :: s))
  /\ length SAMPLE_QUESTIONS = 1%nat.
Proof. repeat split. Qed.

(** ** The tokens and blanks the parser returns *)

Lemma blank_indices_app (t1 t2 : list token) :
  blank_indices (t1 ++ t2) = blank_indices t1 ++ blank_indices t2.
Proof. apply omap_app. Qed.

Lemma blank_indices_Blank n (r : list token) :
  blank_indices (Blank n :: r) = n :: blank_indices r.
Proof. done. Qed.

Lemma blank_indices_span_tokens n l :
  blank_indices (span_tokens n l) = seq n (length l).
Proof.
  revert n. induction l as [|[lit g] l IH]; intros n; [done|].
  cbn [span_tokens length seq].
  rewrite blank_indices_app, blank_indices_Blank, IH.
  by destruct lit.
Qed.

Lemma blank_indices_parsed l tail :
  blank_indices (span_tokens 0 l ++ tail_tokens tail) = seq 0 (length l).
Proof.
  rewrite blank_indices_app, blank_indices_span_tokens.
  replace (blank_indices (tail_tokens tail)) with (@nil nat) by (by destruct tail).
  by rewrite app_nil_r.
Qed.

Lemma tidy_parsed n l tail : tidy (span_tokens n l ++ tail_tokens tail) = true.
Proof.
  revert n. induction l as [|[lit g] l IH]; intros n.
  - by destruct tail.
  - cbn [span_tokens]. destruct lit as [|c lit]; cbn [app tidy]; [apply IH|].
    by rewrite IH.
Qed.

Lemma span_content_length g : span_content g = true -> (1 <= length g)%nat.
Proof. destruct g; [done|simpl; lia]. Qed.

Lemma spans_size s l tail :
  spans s l tail -> (3 * length l + length tail <= length s)%nat.
Proof.
  induction 1 as [|lit g rest l tail Hg%span_content_length _ _ IH]; simpl; [lia|].
  rewrite length_app. simpl. rewrite length_app. simpl. lia.
Qed.

Lemma span_tokens_length n l : (length (span_tokens n l) <= 2 * length l)%nat.
Proof.
  revert n. induction l as [|[lit g] l IH]; intros n; [done|].
  cbn [span_tokens]. rewrite length_app. specialize (IH (S n)).
  destruct lit; simpl in *; lia.
Qed.

(** X1. The placeholders of the parsed tokens carry the indices 0, 1, 2, ...
    in token order, one for each blank: every placeholder points at a blank
    and every blank has exactly one placeholder. *)
Theorem parse_blank_numbering (T : jsstring) :
  exists tokens blanks,
    parse T = Some (tokens, blanks)
    /\ blank_indices tokens = seq 0 (length blanks).
Proof.
  destruct (parse_spans T) as (l & tail & _ & Hparse).
  eexists _, _. split; [exact Hparse|].
  by rewrite blank_indices_parsed, length_map.
Qed.

(** X2. The parser never emits an empty literal token, nor two literal
    tokens in a row: literal text between two blanks is one token. *)
Theorem parse_tidy (T : jsstring) :
  exists tokens blanks, parse T = Some (tokens, blanks) /\ tidy tokens = true.
Proof.
  destruct (parse_spans T) as (l & tail & _ & Hparse).
  eexists _, _. split; [exact Hparse|]. apply tidy_parsed.
Qed.

(** X3. Sizes: each blank takes at least three code units of the transcript
    (two brackets and a content), and there are at most two tokens per blank
    and one more. *)
Theorem parse_size (T : jsstring) :
  exists tokens blanks,
    parse T = Some (tokens, blanks)
    /\ (3 * length blanks <= length T)%nat
    /\ (length tokens <= 2 * length blanks + 1)%nat.
Proof.
  destruct (parse_spans T) as (l & tail & Hsp & Hparse).
  eexists _, _. split; [exact Hparse|].
  rewrite length_map, length_app. split.
  - apply spans_size in Hsp. lia.
  - pose proof (span_tokens_length 0 l). destruct tail; simpl; lia.
Qed.

Lemma parse_Some_inv T tokens blanks :
  parse T = Some (tokens, blanks) ->
  exists l tail,
    spans T l tail /\ tokens = span_tokens 0 l ++ tail_tokens tail /\ blanks = map snd l.
Proof.
  intros Hparse. destruct (parse_spans T) as (l & tail & Hsp & Hparse').
  rewrite Hparse in Hparse'. injection Hparse' as -> ->. eauto.
Qed.

Lemma no_open_no_span s k : LBRACKET ∉ s -> ~ starts_span (drop k s).
Proof.
  intros Hno (g & rest & _ & Heq). apply Hno.
  rewrite <-(take_drop k s), Heq. set_solver.
Qed.

Lemma bracketed_cons lit g l tail :
  bracketed ((lit, g) :: l) tail = lit ++ LBRACKET :: g ++ RBRACKET :: bracketed l tail.
Proof. unfold bracketed. cbn [map concat fst snd]. by rewrite <-!app_assoc. Qed.

Lemma spans_of_bracketed l tail :
  Forall (fun p => (LBRACKET ∉ fst p) /\ span_content (snd p) = true) l ->
  LBRACKET ∉ tail ->
  spans (bracketed l tail) l tail.
Proof.
  intros Hl Htail. induction Hl as [|[lit g] l [Hlit Hg] _ IH].
  - constructor. intros k. by apply no_open_no_span.
  - rewrite bracketed_cons. constructor; [done| |done].
    intros k Hk (g' & rest' & _ & Heq).
    rewrite drop_app_le in Heq by lia.
    destruct (lookup_lt_is_Some_2 lit k Hk) as [c Hc].
    rewrite (drop_S _ _ _ Hc) in Heq. injection Heq as -> _.
    apply Hlit. by eapply list_elem_of_lookup_2.
Qed.

(** X4. A transcript put together from literal texts without opening
    bracket and, between brackets, answers that are not empty, lie on one
    line and hold no closing bracket after their first character, parses
    into exactly these texts and answers, in order. *)
Theorem parse_bracketed (l : list (jsstring * jsstring)) (tail : jsstring) :
  Forall (fun p => (LBRACKET ∉ fst p) /\ span_content (snd p) = true) l ->
  LBRACKET ∉ tail ->
  parse (bracketed l tail) = Some (span_tokens 0 l ++ tail_tokens tail, map snd l).
Proof.
  intros Hl Htail.
  destruct (parse_spans (bracketed l tail)) as (l' & tail' & Hsp' & ->).
  by destruct (spans_unique _ _ _ _ _ (spans_of_bracketed l tail Hl Htail) Hsp') as [<- <-].
Qed.

Lemma parse_bracketed_witness :
  parse (js "Parks give [shade] and [clean air].")
  = Some ([Lit (js "Parks give "); Blank 0; Lit (js " and "); Blank 1; Lit (js ".")],
          [js "shade"; js "clean air"]).
Proof.
  apply (parse_bracketed [(js "Parks give ", js "shade"); (js " and ", js "clean air")]
           (js ".")).
  - repeat constructor; decide_mem.
  - decide_mem.
Defined.

(** ** Grading a session *)

Section Score.

Context `{Platform}.

Lemma graded_Normal answers q i :
  (i < blanksCount q)%nat ->
  exists v, isCorrect answers q i = Normal v /\ graded answers q i = ToBoolean v.
Proof.
  intros Hi. destruct (isCorrect_Normal answers q i Hi) as [v Hv].
  exists v. unfold graded. by rewrite Hv.
Qed.

Lemma count_correct_graded answers q n i c :
  (i + n <= blanksCount q)%nat ->
  count_correct answers q n i c
  = Normal (c + length (filter (fun j => graded answers q j = true) (seq i n)))%nat.
Proof.
  revert i c. induction n as [|n IH]; intros i c Hle.
  - simpl. f_equal. lia.
  - cbn [count_correct seq].
    destruct (graded_Normal answers q i) as (v & -> & Hg); [lia|].
    rewrite IH by lia. f_equal.
    destruct (ToBoolean v) eqn:Hv.
    + rewrite filter_cons_True by congruence. simpl. lia.
    + rewrite filter_cons_False by congruence. lia.
Qed.

Lemma filter_all {A} (P : A -> Prop) `{!forall x, Decision (P x)} (l : list A) :
  length (filter P l) = length l <-> Forall P l.
Proof.
  induction l as [|x l IH].
  - split; [constructor|done].
  - pose proof (length_filter P l) as Hle.
    destruct (decide (P x)) as [Hx|Hx].
    + rewrite filter_cons_True by done. simpl. rewrite Forall_cons.
      split; [intros [= Hl]; split; [done|by apply IH]|intros [_ Hl]; f_equal; by apply IH].
    + rewrite filter_cons_False by done. simpl. rewrite Forall_cons.
      split; [lia|tauto].
Qed.

Lemma filter_none {A} (P : A -> Prop) `{!forall x, Decision (P x)} (l : list A) :
  length (filter P l) = 0%nat <-> Forall (fun x => ~ P x) l.
Proof.
  induction l as [|x l IH].
  - split; [constructor|done].
  - destruct (decide (P x)) as [Hx|Hx].
    + rewrite filter_cons_True by done. simpl. rewrite Forall_cons.
      split; [lia|tauto].
    + rewrite filter_cons_False by done. rewrite Forall_cons, IH. tauto.
Qed.

(** X5. [handleCheck] never raises; it sets [checked], keeps the answers and
    the time left, and the score it sets is the number of blank indices at
    which [isCorrect] is truthy. So the score is at most [blanksCount], it
    is [blanksCount] exactly when every blank is correct, and 0 exactly
    when none is. *)
Theorem handleCheck_score (q : Question) (st : session) :
  exists c,
    handleCheck q st
    = Normal {| answers := answers st; checked := true; score := c;
                timeLeft := timeLeft st |}
    /\ c = length (filter (fun i => graded (answers st) q i = true) (seq 0 (blanksCount q)))
    /\ (c <= blanksCount q)%nat
    /\ (c = blanksCount q <->
        forall i, (i < blanksCount q)%nat -> graded (answers st) q i = true)
    /\ (c = 0%nat <->
        forall i, (i < blanksCount q)%nat -> graded (answers st) q i = false).
Proof.
  eexists. unfold handleCheck.
  rewrite count_correct_graded by lia. cbn [Nat.add].
  split; [done|]. split; [done|].
  set (P := fun i => graded (answers st) q i = true).
  pose proof (length_filter P (seq 0 (blanksCount q))) as Hle.
  rewrite length_seq in Hle. split; [done|]. split.
  - pose proof (filter_all P (seq 0 (blanksCount q))) as Hfa.
    rewrite length_seq in Hfa. rewrite Hfa, Forall_forall. unfold P.
    split; intros Hall i Hi; apply Hall.
    + apply elem_of_seq. lia.
    + apply elem_of_seq in Hi. lia.
  - rewrite filter_none, Forall_forall. unfold P.
    split; intros Hall i Hi.
    + apply not_true_is_false, Hall, elem_of_seq. lia.
    + apply elem_of_seq in Hi. rewrite Hall by lia. done.
Qed.

End Score.

(** ** Surrounding white space *)

Lemma trimStart_ws ws s :
  Forall (fun c => isTrimmed c = true) ws -> trimStart (ws ++ s) = trimStart s.
Proof. induction 1 as [|c ws Hc _ IH]; simpl; [done|]. by rewrite Hc. Qed.

Lemma trimStart_app_ws b ws :
  Forall (fun c => isTrimmed c = true) ws ->
  trimStart (b ++ ws) = trimStart b ++ ws
  \/ (trimStart (b ++ ws) = [] /\ trimStart b = []).
Proof.
  intros Hws. induction b as [|c b IH]; simpl.
  - right. split; [|done]. rewrite <-(app_nil_r ws). by rewrite trimStart_ws.
  - destruct (isTrimmed c); [done|by left].
Qed.

Lemma trimEnd_ws s ws :
  Forall (fun c => isTrimmed c = true) ws -> trimEnd (s ++ ws) = trimEnd s.
Proof.
  intros Hws. unfold trimEnd. rewrite rev_app_distr, trimStart_ws; [done|].
  by apply Forall_rev.
Qed.

Lemma trim_padded ws1 b ws2 :
  Forall (fun c => isTrimmed c = true) ws1 ->
  Forall (fun c => isTrimmed c = true) ws2 ->
  trim (ws1 ++ b ++ ws2) = trim b.
Proof.
  intros H1 H2. unfold trim. rewrite trimStart_ws by done.
  destruct (trimStart_app_ws b ws2 H2) as [->|[-> ->]]; [|done].
  by rewrite trimEnd_ws.
Qed.

(** ** The blanks on screen *)

Section Blanks.

Context `{Platform}.

(** X6. White space and line ends around the expected answer do not count:
    an entry that is the expected answer with such characters before and
    after it is graded correct, unless the entry is empty. *)
Theorem padded_answer_correct (answers : gmap nat jsstring) (q : Question) (i : nat)
    (ws1 b ws2 : jsstring) :
  Forall (fun c => isTrimmed c = true) ws1 ->
  Forall (fun c => isTrimmed c = true) ws2 ->
  q_blanks q !! i = Some b ->
  answers !! i = Some (ws1 ++ b ++ ws2) ->
  ws1 ++ b ++ ws2 <> [] ->
  isCorrect answers q i = Normal (Bool true).
Proof.
  intros H1 H2 Hb Ha Hne. unfold isCorrect. rewrite Ha, Hb.
  destruct (ws1 ++ b ++ ws2) as [|c a] eqn:E; [done|].
  rewrite <-E, trim_padded by done. by rewrite bool_decide_eq_true_2.
Qed.

(** X7. After [handleShowAnswers] the input of every blank shows the expected
    answer, with a green border when that answer is not empty and a red one
    when it is empty. *)
Theorem reveal_borders (q : Question) (st : session) (i : nat) (b : jsstring) :
  q_blanks q !! i = Some b ->
  blankInput (handleShowAnswers q st) q i
  = Normal (b, if truthy (Some b) then Green else Red).
Proof.
  intros Hb. unfold blankInput, isCorrect. cbn [handleShowAnswers answers checked].
  rewrite !filled_lookup, !Hb. destruct b as [|c b]; [done|].
  by rewrite bool_decide_eq_true_2.
Qed.

(** X8. After a check, the input of a blank shows what was entered; its
    border is gray when nothing was ever entered in it, red when the entry
    is empty or differs from the expected answer, and green when the entry
    matches. *)
Theorem check_borders (q : Question) (st : session) (i : nat) (b : jsstring) :
  q_blanks q !! i = Some b ->
  exists st',
    handleCheck q st = Normal st'
    /\ blankInput st' q i
       = Normal (default [] (answers st !! i),
                 match answers st !! i with
                 | None => Gray
                 | Some [] => Red
                 | Some a =>
                     if bool_decide (toLowerCase (trim a) = toLowerCase (trim b))
                     then Green else Red
                 end).
Proof.
  intros Hb. destruct (handleCheck_Normal q st) as (c & -> & _).
  eexists. split; [done|].
  unfold blankInput, isCorrect. cbn [answers checked]. rewrite Hb.
  destruct (answers st !! i) as [[|x a]|]; [done| |done].
  cbn. by destruct (bool_decide _).
Qed.

(** X9. The blanks of a question built by the parser can always be drawn:
    for every placeholder among its tokens, whatever the session,
    [blankInput] returns. *)
Theorem parsed_blanks_drawn (T : jsstring) (q : Question) (st : session) (i : nat) :
  parse T = Some (q_tokens q, q_blanks q) ->
  i ∈ blank_indices (q_tokens q) ->
  exists r, blankInput st q i = Normal r.
Proof.
  intros (l & tail & _ & Htok & Hbl)%parse_Some_inv Hi.
  rewrite Htok, blank_indices_parsed in Hi. apply elem_of_seq in Hi.
  assert (i < blanksCount q)%nat as Hlt
    by (unfold blanksCount; rewrite Hbl, length_map; lia).
  destruct (isCorrect_Normal (answers st) q i Hlt) as [v Hv].
  unfold blankInput. rewrite Hv. destruct (checked st); eauto.
Qed.

End Blanks.

Lemma padded_answer_correct_witness :
  isCorrect (H := ascii_platform) {[ 1%nat := js " exercise  " ]} SAMPLE_Q1 1
  = Normal (Bool true).
Proof.
  apply (padded_answer_correct (H := ascii_platform) {[ 1%nat := js " exercise  " ]}
           SAMPLE_Q1 1 (js " ") (js "exercise") (js "  "));
    try reflexivity; try discriminate; repeat constructor.
Defined.

Lemma reveal_borders_witness :
  blankInput (H := ascii_platform) (handleShowAnswers SAMPLE_Q1 initial) SAMPLE_Q1 0
  = Normal (js "amenities", Green).
Proof.
  apply (reveal_borders (H := ascii_platform) SAMPLE_Q1 initial 0 (js "amenities")).
  reflexivity.
Defined.

Lemma check_borders_witness :
  exists st',
    handleCheck (H := ascii_platform) SAMPLE_Q1
      (typeAnswer 0 (js "Amenities") (handleReset SAMPLE_Q1 initial)) = Normal st'
    /\ blankInput (H := ascii_platform) st' SAMPLE_Q1 0 = Normal (js "Amenities", Green)
    /\ blankInput (H := ascii_platform) st' SAMPLE_Q1 1 = Normal (js "", Gray).
Proof.
  set (st := typeAnswer 0 (js "Amenities") (handleReset SAMPLE_Q1 initial)).
  destruct (check_borders (H := ascii_platform) SAMPLE_Q1 st 0 (js "amenities") eq_refl)
    as (st' & Hst' & H0).
  destruct (check_borders (H := ascii_platform) SAMPLE_Q1 st 1 (js "exercise") eq_refl)
    as (st'' & Hst'' & H1).
  rewrite Hst' in Hst''. injection Hst'' as <-.
  exists st'. split; [exact Hst'|]. split; [exact H0|exact H1].
Defined.

Lemma parsed_blanks_drawn_witness :
  let q := {| q_id := js "q2"; q_title := Some (js "Parks"); q_audioUrl := Some (js "a.mp3");
              q_timeLimitSec := Some 90%Z;
              q_tokens := [Lit (js "Parks give "); Blank 0; Lit (js ".")];
              q_blanks := [js "shade"] |} in
  exists r, blankInput (H := ascii_platform) (handleShowAnswers q initial) q 0 = Normal r.
Proof.
  intros q.
  apply (parsed_blanks_drawn (H := ascii_platform) (js "Parks give [shade].") q
           (handleShowAnswers q initial) 0); [reflexivity|decide_mem].
Defined.

(** ** The countdown *)

Section Countdown.

Context `{Platform}.

Lemma seconds_add a b q st :
  seconds (a + b) q st
  = match seconds a q st with
    | Normal st' => seconds b q st'
    | Throw e => Throw e
    end.
Proof.
  revert st. induction a as [|a IH]; intros st; [done|].
  cbn [Nat.add seconds]. destruct (second q st); [apply IH|done].
Qed.

Lemma seconds_running m q st t :
  timeLeft st = Some t -> checked st = false -> (Z.of_nat m < t)%Z ->
  seconds m q st
  = Normal {| answers := answers st; checked := false; score := score st;
              timeLeft := Some (t - Z.of_nat m)%Z |}.
Proof.
  revert st t. induction m as [|m IH]; intros st t Ht Hc Hlt.
  - simpl. destruct st; simpl in *. subst. do 3 f_equal. lia.
  - cbn [seconds]. unfold second, tick. rewrite Ht.
    destruct (Z.ltb_spec 0 t); [|lia].
    unfold expiryEffect. cbn [timeLeft checked].
    rewrite bool_decide_eq_false_2 by (intros [= ?]; lia).
    cbn [andb]. rewrite (IH _ (t - 1)%Z) by (done || simpl; lia).
    rewrite Hc. simpl. do 3 f_equal. lia.
Qed.

Lemma second_expiry q st :
  timeLeft st = Some 1%Z -> checked st = false ->
  second q st
  = handleCheck q {| answers := answers st; checked := false; score := score st;
                     timeLeft := Some 0%Z |}.
Proof.
  intros Ht Hc. unfold second, tick, expiryEffect. rewrite Ht, Hc. done.
Qed.

Lemma seconds_stopped k q st :
  timeLeft st = Some 0%Z -> checked st = true -> seconds k q st = Normal st.
Proof.
  intros Ht Hc. induction k as [|k IH]; [done|].
  cbn [seconds]. unfold second, tick, expiryEffect. rewrite Ht. simpl.
  rewrite Ht, Hc. simpl. exact IH.
Qed.

Lemma seconds_no_timer k q st :
  timeLeft st = None \/ (exists t, timeLeft st = Some t /\ (t < 0)%Z) ->
  seconds k q st = Normal st.
Proof.
  intros Ht. induction k as [|k IH]; [done|].
  cbn [seconds]. unfold second, tick, expiryEffect.
  destruct Ht as [Ht|(t & Ht & Hneg)]; rewrite Ht.
  - rewrite Ht. simpl. exact IH.
  - destruct (Z.ltb_spec 0 t); [lia|]. rewrite Ht.
    rewrite bool_decide_eq_false_2 by (intros [= ?]; lia). exact IH.
Qed.

(** X10. A countdown of [n + 1] seconds, at most 2^53 of them, on an
    unchecked session: during the first [n] seconds only the time left
    changes, a second at a time; the next second runs [handleCheck] on the
    session as it then is; and later seconds change nothing, so the check
    runs once. *)
Theorem countdown_checks_once (n k : nat) (q : Question) (st : session) :
  timeLeft st = Some (Z.of_nat (S n)) -> (Z.of_nat (S n) <= 2 ^ 53)%Z ->
  checked st = false ->
  (forall m, (m <= n)%nat ->
     seconds m q st
     = Normal {| answers := answers st; checked := false; score := score st;
                 timeLeft := Some (Z.of_nat (S n) - Z.of_nat m)%Z |})
  /\ seconds (S n + k) q st
     = handleCheck q {| answers := answers st; checked := false; score := score st;
                        timeLeft := Some 0%Z |}.
Proof.
  intros Ht _ Hc. split.
  - intros m Hm. apply seconds_running; [done|done|lia].
  - replace (S n + k)%nat with (n + (1 + k))%nat by lia.
    rewrite seconds_add, (seconds_running n q st _ Ht Hc) by lia.
    cbn [Nat.add seconds]. rewrite second_expiry; [|simpl; f_equal; lia|done].
    cbn [answers score].
    destruct (handleCheck_Normal q
                {| answers := answers st; checked := false; score := score st;
                   timeLeft := Some 0%Z |}) as (c & -> & _).
    by apply seconds_stopped.
Qed.

(** X11. A session with no time left to count, because [timeLeft] is [null]
    or negative, is never changed by the clock: no second passes on it and
    no check runs. *)
Theorem no_countdown (k : nat) (q : Question) (st : session) :
  timeLeft st = None \/ (exists t, timeLeft st = Some t /\ (t < 0)%Z) ->
  seconds k q st = Normal st.
Proof. apply seconds_no_timer. Qed.

(** X12. After the check the clock still runs down to 0 and stops there,
    and it changes nothing but the time left, a whole number of at most
    2^53 seconds. *)
Theorem clock_after_check (k : nat) (q : Question) (st : session) (t : Z) :
  timeLeft st = Some t -> (0 <= t <= 2 ^ 53)%Z -> checked st = true ->
  seconds k q st
  = Normal {| answers := answers st; checked := true; score := score st;
              timeLeft := Some (Z.max 0 (t - Z.of_nat k)) |}.
Proof.
  revert st t. induction k as [|k IH]; intros st t Ht Hpos Hc.
  - simpl. destruct st; simpl in *. subst. do 3 f_equal. lia.
  - cbn [seconds]. unfold second, tick, expiryEffect. rewrite Ht.
    destruct (Z.ltb_spec 0 t).
    + cbn [timeLeft checked]. rewrite Hc, andb_false_r.
      rewrite (IH _ (t - 1)%Z) by (done || simpl; lia).
      simpl. do 3 f_equal. lia.
    + rewrite Hc, andb_false_r. rewrite (IH _ t) by (done || lia).
      do 3 f_equal. lia.
Qed.

(** With no entry, no blank is graded correct. *)
Lemma count_correct_empty q n i c :
  (i + n <= blanksCount q)%nat -> count_correct ∅ q n i c = Normal c.
Proof.
  intros Hle. rewrite count_correct_graded by done. f_equal.
  assert (length (filter (fun j => graded ∅ q j = true) (seq i n)) = 0%nat) as ->; [|lia].
  apply filter_none, Forall_forall. intros j _.
  unfold graded, isCorrect. by rewrite lookup_empty.
Qed.

(** X13. A question whose time limit is 0 is checked as soon as it becomes
    the active one, with no answer entered and a score of 0; with any other
    time limit, or none, the session starts unchecked. *)
Theorem enter_question (q : Question) (st : session) :
  enterQuestion q st
  = Normal (if bool_decide (q_timeLimitSec q = Some 0%Z)
            then {| answers := ∅; checked := true; score := 0; timeLeft := Some 0%Z |}
            else {| answers := ∅; checked := false; score := 0;
                    timeLeft := q_timeLimitSec q |}).
Proof.
  unfold enterQuestion, expiryEffect, handleReset. cbn [timeLeft checked andb negb].
  rewrite andb_true_r. case_bool_decide as Hz; [|done].
  unfold handleCheck. cbn [answers timeLeft]. rewrite count_correct_empty by lia.
  by rewrite Hz.
Qed.

End Countdown.

Lemma countdown_checks_once_witness :
  let st := typeAnswer 0 (js "amenities")
              {| answers := ∅; checked := false; score := 0; timeLeft := Some 3%Z |} in
  (forall m, (m <= 2)%nat ->
     seconds (H := ascii_platform) m SAMPLE_Q1 st
     = Normal {| answers := answers st; checked := false; score := 0;
                 timeLeft := Some (3 - Z.of_nat m)%Z |})
  /\ seconds (H := ascii_platform) (3 + 5) SAMPLE_Q1 st
     = handleCheck (H := ascii_platform) SAMPLE_Q1
         {| answers := answers st; checked := false; score := 0; timeLeft := Some 0%Z |}.
Proof.
  intros st.
  apply (countdown_checks_once (H := ascii_platform) 2 5 SAMPLE_Q1 st);
    [reflexivity|vm_compute; discriminate|reflexivity].
Defined.

Lemma no_countdown_witness :
  seconds (H := ascii_platform) 7 SAMPLE_Q1 initial = Normal initial.
Proof.
  apply (no_countdown (H := ascii_platform) 7 SAMPLE_Q1 initial). left. reflexivity.
Defined.

Lemma clock_after_check_witness :
  let st := handleShowAnswers SAMPLE_Q1 (handleReset SAMPLE_Q1 initial) in
  seconds (H := ascii_platform) 100 SAMPLE_Q1 st
  = Normal {| answers := answers st; checked := true; score := 0; timeLeft := Some 0%Z |}.
Proof.
  intros st.
  apply (clock_after_check (H := ascii_platform) 100 SAMPLE_Q1 st 90);
    [reflexivity|split; vm_compute; discriminate|reflexivity].
Defined.

(** ** Navigation and the active question *)

Lemma activeQuestion_Normal questions index :
  (exists q, activeQuestion questions index = Normal q)
  <-> (0 <= index < Z.of_nat (length questions))%Z.
Proof.
  unfold activeQuestion. destruct (Z.leb_spec 0 index) as [Hpos|Hneg].
  - destruct (questions !! Z.to_nat index) as [q|] eqn:Hq.
    + apply lookup_lt_Some in Hq. split; [lia|eauto].
    + apply lookup_ge_None in Hq. split; [by intros [q ?]|lia].
  - split; [by intros [q ?]|lia].
Qed.

(** X14. Previous and Next never leave the collection: while the active
    question exists, it exists after either of them. Next at the last
    question and Previous at the first change nothing; elsewhere each undoes
    the other. *)
Theorem navigation_stays_inside (questions : list Question) (index : Z) (q : Question) :
  activeQuestion questions index = Normal q ->
  (exists q', activeQuestion questions (nextQ questions index) = Normal q')
  /\ (exists q', activeQuestion questions (prevQ index) = Normal q')
  /\ (index = Z.of_nat (length questions) - 1 -> nextQ questions index = index)%Z
  /\ (index = 0 -> prevQ index = index)%Z
  /\ (index < Z.of_nat (length questions) - 1 -> prevQ (nextQ questions index) = index)%Z
  /\ (0 < index -> nextQ questions (prevQ index) = index)%Z.
Proof.
  intros Hq.
  assert (0 <= index < Z.of_nat (length questions))%Z as Hin
    by (apply activeQuestion_Normal; eauto).
  unfold nextQ, prevQ.
  split; [apply activeQuestion_Normal; lia|].
  split; [apply activeQuestion_Normal; lia|].
  repeat split; lia.
Qed.

Lemma navigation_stays_inside_witness :
  (exists q', activeQuestion SAMPLE_QUESTIONS (nextQ SAMPLE_QUESTIONS 0) = Normal q')
  /\ (exists q', activeQuestion SAMPLE_QUESTIONS (prevQ 0) = Normal q')
  /\ nextQ SAMPLE_QUESTIONS 0 = 0%Z
  /\ prevQ 0 = 0%Z.
Proof.
  destruct (navigation_stays_inside SAMPLE_QUESTIONS 0 SAMPLE_Q1 eq_refl)
    as (H1 & H2 & H3 & H4 & _).
  split; [exact H1|]. split; [exact H2|]. split; [by apply H3|by apply H4].
Defined.

(** X15. Deleting does not move [index]: when the last question of the
    collection is the active one and a question is deleted, the component
    raises on its next render, reading the blanks of no question. *)
Theorem delete_while_on_last (questions : list Question) (id : jsstring) (index : Z) :
  index = (Z.of_nat (length questions) - 1)%Z ->
  id ∈ map q_id questions ->
  activeQuestion (deleteQuestion questions id) index = Throw TypeError.
Proof.
  intros -> (q & Hid & Hq)%list_elem_of_fmap.
  assert (length (deleteQuestion questions id) < length questions)%nat as Hlt.
  { unfold deleteQuestion. eapply length_filter_lt; [exact Hq|]. intros Hne. by apply Hne. }
  destruct (activeQuestion (deleteQuestion questions id) (Z.of_nat (length questions) - 1))
    as [q'|e] eqn:Ha.
  - assert (0 <= Z.of_nat (length questions) - 1
            < Z.of_nat (length (deleteQuestion questions id)))%Z
      by (apply activeQuestion_Normal; eauto).
    lia.
  - unfold activeQuestion in Ha. by repeat case_match.
Qed.

Lemma delete_while_on_last_witness :
  activeQuestion (deleteQuestion SAMPLE_QUESTIONS (js "q1")) 0 = Throw TypeError.
Proof.
  apply (delete_while_on_last SAMPLE_QUESTIONS (js "q1") 0); [reflexivity|decide_mem].
Defined.

(** ** Deleting, adding and updating together *)

Lemma deleteQuestion_absent questions id :
  id ∉ map q_id questions -> deleteQuestion questions id = questions.
Proof.
  intros Hno. unfold deleteQuestion.
  induction questions as [|q questions IH]; [done|].
  cbn [map] in Hno. apply not_elem_of_cons in Hno as [Hq Hno].
  rewrite filter_cons_True by done. f_equal. by apply IH.
Qed.


(** X17. Adding a question whose new id is not in the collection and then
    deleting that id gives the collection back. *)
Theorem add_then_delete (now : Z) (questions : list Question) (d : Draft) :
  timestamp_id now ∉ map q_id questions ->
  exists added,
    addQuestion now questions d = Some added
    /\ deleteQuestion added (timestamp_id now) = questions.
Proof.
  intros Hfresh.
  destruct (parse_is_Some (d_transcript d)) as (tokens & blanks & Hparse).
  unfold addQuestion. rewrite Hparse. eexists. split; [done|].
  unfold deleteQuestion. rewrite filter_app.
  rewrite filter_cons_False by (intros Hne; by apply Hne).
  rewrite filter_nil, app_nil_r. by apply deleteQuestion_absent.
Qed.

Lemma add_then_delete_witness :
  let d := {| d_title := Some (js "Parks"); d_transcript := js "Parks give [shade].";
              d_audioUrl := Some (js "a.mp3"); d_timeLimitSec := Some 90%Z |} in
  exists added,
    addQuestion 1700000000000 SAMPLE_QUESTIONS d = Some added
    /\ deleteQuestion added (js "q1700000000000") = SAMPLE_QUESTIONS.
Proof.
  intros d. apply (add_then_delete 1700000000000 SAMPLE_QUESTIONS d). decide_mem.
Defined.

(** X18. Updating twice with the same draft is updating once, and deleting
    the id after an update is deleting it before: the update only touches
    questions that the deletion removes. *)
Theorem update_then_again_or_delete (questions : list Question) (id : jsstring) (d : Draft) :
  exists updated,
    updateQuestion questions id d = Some updated
    /\ updateQuestion updated id d = Some updated
    /\ deleteQuestion updated id = deleteQuestion questions id.
Proof.
  destruct (parse_is_Some (d_transcript d)) as (tokens & blanks & Hparse).
  unfold updateQuestion. rewrite Hparse. cbn. eexists. split; [done|]. split.
  - f_equal. rewrite map_map. apply map_ext. intros q.
    destruct (decide (q_id q = id)) as [Hq|Hq]; cbn [q_id].
    + rewrite decide_True by done. cbn. f_equal.
      unfold or_else. by destruct (truthy (d_title d)) eqn:Ht; rewrite ?Ht.
    + by rewrite decide_False.
  - unfold deleteQuestion. induction questions as [|q questions IH]; [done|].
    cbn [map]. case_decide as Hq.
    + rewrite !filter_cons_False by (cbn; intros Hne; by apply Hne). exact IH.
    + rewrite !filter_cons_True by done. by rewrite IH.
Qed.

(** X19. Updating an id that no question has changes nothing. *)
Theorem update_absent (questions : list Question) (id : jsstring) (d : Draft) :
  id ∉ map q_id questions ->
  updateQuestion questions id d = Some questions.
Proof.
  intros Hno.
  destruct (parse_is_Some (d_transcript d)) as (tokens & blanks & Hparse).
  unfold updateQuestion. rewrite Hparse. cbn. f_equal.
  induction questions as [|q questions IH]; [done|].
  cbn [map] in *. apply not_elem_of_cons in Hno as [Hq Hno].
  rewrite decide_False by done. f_equal. by apply IH.
Qed.

Lemma update_absent_witness :
  updateQuestion SAMPLE_QUESTIONS (js "q2")
    {| d_title := Some (js "Parks"); d_transcript := js "Parks give [shade].";
       d_audioUrl := Some (js "a.mp3"); d_timeLimitSec := Some 90%Z |}
  = Some SAMPLE_QUESTIONS.
Proof. apply (update_absent SAMPLE_QUESTIONS (js "q2")). decide_mem. Defined.

(** X20. Ids that are all different stay all different under deletion and
    under update, and under addition when the new id is not in the
    collection. *)
Theorem unique_ids_kept (now : Z) (questions : list Question) (id : jsstring) (d : Draft) :
  NoDup (map q_id questions) ->
  NoDup (map q_id (deleteQuestion questions id))
  /\ (exists updated,
        updateQuestion questions id d = Some updated /\ NoDup (map q_id updated))
  /\ (timestamp_id now ∉ map q_id questions ->
      exists added, addQuestion now questions d = Some added /\ NoDup (map q_id added)).
Proof.
  intros Hnd.
  destruct (parse_is_Some (d_transcript d)) as (tokens & blanks & Hparse).
  split; [|split].
  - unfold deleteQuestion. induction questions as [|q questions IH]; [constructor|].
    cbn [map] in Hnd. apply NoDup_cons in Hnd as [Hq Hnd].
    destruct (decide (q_id q <> id)).
    + rewrite filter_cons_True by done. cbn [map]. apply NoDup_cons.
      split; [|by apply IH].
      intros (q' & Hid & [_ Hin]%list_elem_of_filter)%list_elem_of_fmap.
      apply Hq, list_elem_of_fmap. eauto.
    + rewrite filter_cons_False by done. by apply IH.
  - unfold updateQuestion. rewrite Hparse. cbn. eexists. split; [done|].
    rewrite map_map.
    erewrite map_ext; [exact Hnd|]. intros q. by case_decide.
  - intros Hfresh. unfold addQuestion. rewrite Hparse. cbn. eexists. split; [done|].
    rewrite map_app. apply NoDup_app. split; [done|].
    split; [|cbn; apply NoDup_singleton].
    intros x Hx [->|[]%elem_of_nil]%elem_of_cons. done.
Qed.

Lemma unique_ids_kept_witness :
  let d := {| d_title := Some (js "Parks"); d_transcript := js "Parks give [shade].";
              d_audioUrl := Some (js "a.mp3"); d_timeLimitSec := Some 90%Z |} in
  NoDup (map q_id (deleteQuestion SAMPLE_QUESTIONS (js "q1")))
  /\ (exists updated,
        updateQuestion SAMPLE_QUESTIONS (js "q1") d = Some updated
        /\ NoDup (map q_id updated))
  /\ (exists added,
        addQuestion 1700000000000 SAMPLE_QUESTIONS d = Some added
        /\ NoDup (map q_id added)).
Proof.
  intros d.
  destruct (unique_ids_kept 1700000000000 SAMPLE_QUESTIONS (js "q1") d) as (H1 & H2 & H3).
  - repeat constructor. by intros ?%elem_of_nil.
  - split; [exact H1|]. split; [exact H2|]. apply H3. decide_mem.
Defined.

(** ** The form of [AdminPanel] *)

Lemma NoDup_ids_eq (questions : list Question) (q1 q2 : Question) :
  NoDup (map q_id questions) -> q1 ∈ questions -> q2 ∈ questions ->
  q_id q1 = q_id q2 -> q1 = q2.
Proof.
  induction questions as [|q questions IH]; intros Hnd H1 H2 Hid.
  - by apply elem_of_nil in H1.
  - cbn [map] in Hnd. apply NoDup_cons in Hnd as [Hq Hnd].
    apply elem_of_cons in H1 as [->|H1]; apply elem_of_cons in H2 as [->|H2].
    + done.
    + exfalso. apply Hq, list_elem_of_fmap. eauto.
    + exfalso. apply Hq, list_elem_of_fmap. eauto.
    + by apply IH.
Qed.

Lemma render_of_parse T tokens blanks :
  parse T = Some (tokens, blanks) -> render tokens blanks = T.
Proof.
  intros (l & tail & Hsp & -> & ->)%parse_Some_inv.
  rewrite render_parsed. by apply spans_bracketed.
Qed.

(** X21. Opening a question in the form and saving it as it stands changes
    nothing in the collection, when the ids of the collection are all
    different and the question has a title, an audio URL, a time limit and
    tokens and blanks that the parser made from a non-empty transcript. *)
Theorem edit_unchanged (now : Z) (questions : list Question) (e : Question)
    (T : jsstring) (f : Form) :
  NoDup (map q_id questions) -> e ∈ questions ->
  parse T = Some (q_tokens e, q_blanks e) -> T <> [] ->
  truthy (q_title e) = true -> truthy (q_audioUrl e) = true ->
  editForm e = Some f ->
  handleSave now questions (Some e) f
  = Some {| s_questions := questions; s_form := emptyForm; s_editQuestion := None |}.
Proof.
  intros Hnd He Hparse HT Htitle Haudio Hf.
  unfold editForm in Hf. destruct (q_timeLimitSec e) as [z|] eqn:Hz; [|done].
  injection Hf as <-.
  unfold handleSave. cbn [f_title f_transcript f_audioUrl f_timeLimit].
  rewrite (render_of_parse _ _ _ Hparse), Htitle, Haudio.
  destruct T as [|c T]; [done|]. cbn [truthy negb orb].
  unfold updateQuestion. cbn [d_transcript]. rewrite Hparse. cbn.
  do 2 f_equal. rewrite <-(map_id questions) at 2.
  apply map_ext_in. intros q Hq%list_elem_of_In.
  case_decide as Hid; [|done].
  assert (q = e) as -> by (by eapply NoDup_ids_eq).
  unfold or_else. rewrite Htitle. destruct e; simpl in *. by subst.
Qed.

Lemma edit_unchanged_witness :
  handleSave 1700000000000 SAMPLE_QUESTIONS (Some SAMPLE_Q1)
    {| f_title := Some (js "Urban parks audio clip");
       f_transcript :=
         js "City parks provide vital [amenities] for residents, offering spaces for [exercise], relaxation, and community events.";
       f_audioUrl :=
         Some (js "https://www.soundhelix.com/examples/mp3/SoundHelix-Song-1.mp3");
       f_timeLimit := 90 |}
  = Some {| s_questions := SAMPLE_QUESTIONS; s_form := emptyForm; s_editQuestion := None |}.
Proof.
  apply (edit_unchanged 1700000000000 SAMPLE_QUESTIONS SAMPLE_Q1
           (js "City parks provide vital [amenities] for residents, offering spaces for [exercise], relaxation, and community events."));
    try reflexivity; try discriminate.
  - repeat constructor. by intros ?%elem_of_nil.
  - constructor.
Defined.

(** X22. The form keeps the questions complete: if every question of the
    collection has a title, an audio URL and a time limit, so has every
    question of the collection [handleSave] leaves, whether it refuses the
    form, adds a question or updates one. *)
Theorem form_keeps_complete (now : Z) (questions : list Question)
    (editQuestion : option Question) (f : Form) :
  Forall (fun q => complete q = true) questions ->
  exists saved,
    handleSave now questions editQuestion f = Some saved
    /\ Forall (fun q => complete q = true) (s_questions saved).
Proof.
  intros Hall. unfold handleSave.
  destruct (truthy (Some (f_transcript f))); cbn [negb orb]; [|by eauto].
  destruct (truthy (f_audioUrl f)) eqn:Haudio; cbn [negb orb]; [|by eauto].
  destruct (truthy (f_title f)) eqn:Htitle; cbn [negb]; [|by eauto].
  destruct (parse_is_Some (f_transcript f)) as (tokens & blanks & Hparse).
  destruct editQuestion as [e|].
  - unfold updateQuestion. cbn [d_transcript]. rewrite Hparse. cbn.
    eexists. split; [done|]. cbn.
    apply Forall_forall. intros q' (q & -> & Hq)%list_elem_of_fmap.
    case_decide.
    + unfold complete, or_else. cbn. by rewrite Htitle, Htitle, Haudio.
    + rewrite Forall_forall in Hall. by apply Hall.
  - unfold addQuestion. cbn [d_transcript]. rewrite Hparse. cbn.
    eexists. split; [done|]. cbn.
    apply Forall_app. split; [done|]. constructor; [|constructor].
    unfold complete, or_else. cbn. by rewrite Htitle, Htitle, Haudio.
Qed.

Lemma form_keeps_complete_witness :
  exists saved,
    handleSave 1700000000000 SAMPLE_QUESTIONS None
      {| f_title := Some (js "Parks"); f_transcript := js "Parks give [shade].";
         f_audioUrl := Some (js "a.mp3"); f_timeLimit := 60 |}
    = Some saved
    /\ Forall (fun q => complete q = true) (s_questions saved).
Proof.
  apply (form_keeps_complete 1700000000000 SAMPLE_QUESTIONS None).
  repeat constructor.
Defined.

(** ** The clock of the audio player *)

Lemma padStart2_seconds (s : Z) :
  (0 <= s < 60)%Z ->
  padStart2 (number_to_string s) = [Z.to_N (48 + s / 10); Z.to_N (48 + s mod 10)].
Proof.
  intros Hs.
  assert (forallb
            (fun k => bool_decide
               (padStart2 (number_to_string (Z.of_nat k))
                = [Z.to_N (48 + Z.of_nat k / 10); Z.to_N (48 + Z.of_nat k mod 10)]))
            (seq 0 60) = true) as Hall by (vm_compute; reflexivity).
  rewrite forallb_forall in Hall.
  specialize (Hall (Z.to_nat s)). rewrite Z2Nat.id in Hall by lia.
  eapply bool_decide_eq_true_1, Hall, in_seq. lia.
Qed.

(** X23. For a whole number of seconds from 0 to 2^53, [formatTime] writes
    the minutes, a colon and the remaining seconds with exactly two digits;
    the text for 0 follows the same rule. *)
Theorem formatTime_minutes_seconds (sec : Z) :
  (0 <= sec <= 2 ^ 53)%Z ->
  formatTime sec
  = number_to_string (sec / 60)%Z ++ js ":"
    ++ [Z.to_N (48 + (sec mod 60) / 10); Z.to_N (48 + (sec mod 60) mod 10)].
Proof.
  intros Hpos. unfold formatTime.
  destruct (Z.eqb_spec sec 0) as [->|Hne]; [vm_compute; reflexivity|].
  rewrite Z.rem_mod_nonneg by lia.
  rewrite padStart2_seconds; [done|]. apply Z.mod_pos_bound. lia.
Qed.

Lemma formatTime_minutes_seconds_witness :
  formatTime 125 = js "2:05" /\ formatTime 0 = js "0:00" /\ formatTime 3600 = js "60:00".
Proof.
  split; [|split].
  - apply (formatTime_minutes_seconds 125). split; vm_compute; discriminate.
  - apply (formatTime_minutes_seconds 0). split; vm_compute; discriminate.
  - apply (formatTime_minutes_seconds 3600). split; vm_compute; discriminate.
Defined.

(** ** The pattern's spans and the well-formed spans *)

Lemma plain_span_content g : plain g -> g <> [] -> span_content g = true.
Proof.
  intros Hg Hne. destruct g as [|c g]; [done|]. inversion_clear Hg as [|? ? (_ & _ & Hc) Hg'].
  cbn [span_content]. rewrite Hc. cbn [negb andb]. apply forallb_forall.
  intros x Hx%list_elem_of_In. rewrite Forall_forall in Hg'.
  destruct (Hg' x Hx) as (_ & Hr & ->). by apply N.eqb_neq in Hr as ->.
Qed.



Section Scan.




End Scan.








(** ** Texts the pattern leaves literal *)

Section Literal.

(** What the lazy group does up to a closing bracket does not depend on what
    follows that bracket. *)
Lemma lazy_until_close_indep s r1 r2 :
  lazy_until_close (s ++ RBRACKET :: r1) = lazy_until_close (s ++ RBRACKET :: r2).
Proof.
  induction s as [|c s IH]; [done|].
  cbn [app lazy_until_close]. by rewrite IH.
Qed.

Lemma match_at_indep A r1 r2 k :
  (k + 2 <= length A)%nat ->
  match_at (drop k (A ++ RBRACKET :: r1)) = match_at (drop k (A ++ RBRACKET :: r2)).
Proof.
  intros Hk. rewrite !drop_app_le by lia.
  destruct (drop k A) as [|c0 [|c1 s]] eqn:Hd.
  1,2: apply (f_equal length) in Hd; rewrite length_drop in Hd; simpl in Hd; lia.
  cbn [app match_at].
  destruct ((c0 =? LBRACKET) && negb (isLineTerminator c1)); [|done].
  by rewrite (lazy_until_close_indep s r1 r2).
Qed.

Lemma no_span_before_indep lit g r1 r2 k :
  (k < length lit)%nat ->
  ~ starts_span (drop k (lit ++ LBRACKET :: g ++ RBRACKET :: r1)) ->
  ~ starts_span (drop k (lit ++ LBRACKET :: g ++ RBRACKET :: r2)).
Proof.
  intros Hk. rewrite <-!match_at_None.
  replace (lit ++ LBRACKET :: g ++ RBRACKET :: r1)
    with ((lit ++ LBRACKET :: g) ++ RBRACKET :: r1) by (by rewrite <-app_assoc).
  replace (lit ++ LBRACKET :: g ++ RBRACKET :: r2)
    with ((lit ++ LBRACKET :: g) ++ RBRACKET :: r2) by (by rewrite <-app_assoc).
  rewrite (match_at_indep _ r1 r2); [done|].
  rewrite length_app. simpl. lia.
Qed.

Lemma starts_span_app s r : starts_span s -> starts_span (s ++ r).
Proof.
  intros (g & rest & Hg & ->). exists g, (rest ++ r). split; [done|].
  simpl. by rewrite <-app_assoc.
Qed.

Lemma starts_span_lookup s k : starts_span (drop k s) -> s !! k = Some LBRACKET.
Proof.
  intros (g & rest & _ & Heq).
  rewrite <-(Nat.add_0_r k), <-lookup_drop, Heq. done.
Qed.

Lemma spans_tail_free s l tail : spans s l tail -> forall k, ~ starts_span (drop k tail).
Proof. induction 1; done. Qed.

(** The spans of a text are found again when the text goes on, followed by
    those of what remained with the text added. *)
Lemma spans_app pre l1 t1 rest l2 tail :
  spans pre l1 t1 -> spans (t1 ++ rest) l2 tail -> spans (pre ++ rest) (l1 ++ l2) tail.
Proof.
  induction 1 as [s _|lit g restp l t Hg Hno _ IH]; intros H2; [done|].
  replace ((lit ++ LBRACKET :: g ++ RBRACKET :: restp) ++ rest)
    with (lit ++ LBRACKET :: g ++ RBRACKET :: (restp ++ rest))
    by (rewrite <-app_assoc; simpl; by rewrite <-app_assoc).
  cbn [app]. constructor; [done| |by apply IH].
  intros k Hk. eapply no_span_before_indep; [done|]. by apply Hno.
Qed.

Lemma bracketed_nil tail : bracketed [] tail = tail.
Proof. done. Qed.

Lemma bracketed_app l a b : bracketed l (a ++ b) = bracketed l a ++ b.
Proof. unfold bracketed. by rewrite app_assoc. Qed.

Lemma spans_split la : forall T lb tail,
  spans T (la ++ lb) tail -> exists restT, T = bracketed la restT /\ spans restT lb tail.
Proof.
  induction la as [|[lit g] la IH]; intros T lb tail Hsp; [by exists T|].
  inversion Hsp as [|lit' g' rest' l' tail' Hg Hno Hsp' Heq]; subst.
  destruct (IH _ _ _ Hsp') as (restT & -> & Hrest).
  exists restT. by rewrite bracketed_cons.
Qed.

Lemma spans_prefix la : forall lb tail x r,
  spans (bracketed la (x ++ r)) (la ++ lb) tail ->
  (forall k, (k < length x)%nat -> ~ starts_span (drop k (x ++ r))) ->
  spans (bracketed la x) la x.
Proof.
  induction la as [|[lit g] la IH]; intros lb tail x r Hsp Hno.
  - rewrite bracketed_nil. constructor. intros k Hs.
    destruct (decide (k < length x)%nat) as [Hk|Hk].
    + apply (Hno k Hk). rewrite drop_app_le by lia. by apply starts_span_app.
    + rewrite drop_ge in Hs by lia. by destruct Hs as (? & ? & _ & ?).
  - rewrite bracketed_cons in *.
    inversion Hsp as [|lit' g' rest' l' tail' Hg Hno' Hsp' Heq]; subst.
    apply app_inv_head in Heq. injection Heq as Heq.
    destruct (span_content_unique _ _ _ _ Hg Hg Heq) as [_ ->].
    constructor; [done| |by eapply IH].
    intros k Hk. eapply no_span_before_indep; [done|]. by apply Hno'.
Qed.

Lemma first_span_after P post l tail :
  (forall k, (k < length P)%nat -> ~ starts_span (drop k (P ++ post))) ->
  spans (P ++ post) l tail ->
  (l = [] /\ tail = P ++ post) \/ (exists y g l', l = (P ++ y, g) :: l').
Proof.
  intros Hno Hsp.
  inversion Hsp as [|lit g rest l' tail' Hg _ _ Heq]; subst; [by left|right].
  destruct (decide (length lit < length P)%nat) as [Hlt|Hge].
  - exfalso. apply (Hno _ Hlt). rewrite drop_app_length. by exists g, rest.
  - exists (drop (length P) lit), g, l'. do 2 f_equal.
    apply (f_equal (take (length P))) in Heq.
    rewrite take_app_le, take_app_length in Heq by lia.
    rewrite <-Heq at 1. by rewrite take_drop.
Qed.

(** A text of the transcript lies in a literal text exactly when the pattern
    matches nowhere from the end of the last span before it to its own end. *)
Lemma literal_suff pre l1 t1 B post l tail :
  spans pre l1 t1 ->
  (forall k, (k < length (t1 ++ B))%nat -> ~ starts_span (drop k (t1 ++ B ++ post))) ->
  spans (pre ++ B ++ post) l tail ->
  in_literal B pre l tail.
Proof.
  intros Hpre Hno Hsp.
  destruct (parse_spans (t1 ++ B ++ post)) as (l2 & tail2 & Hsp2 & _).
  pose proof (spans_app _ _ _ _ _ _ Hpre Hsp2) as Hall.
  destruct (spans_unique _ _ _ _ _ Hsp Hall) as [-> ->].
  rewrite (app_assoc t1 B post) in Hsp2, Hno.
  destruct (first_span_after _ _ _ _ Hno Hsp2) as [[-> ->]|(y & g & l' & ->)].
  - right. exists t1, post. rewrite app_nil_r.
    split; [by rewrite <-app_assoc|by apply spans_bracketed].
  - left. exists l1, g, l', t1, y.
    split; [by rewrite <-app_assoc|by apply spans_bracketed].
Qed.

Lemma literal_nec pre l1 t1 B post l tail :
  spans pre l1 t1 -> spans (pre ++ B ++ post) l tail -> in_literal B pre l tail ->
  forall k, (k < length (t1 ++ B))%nat -> ~ starts_span (drop k (t1 ++ B ++ post)).
Proof.
  intros Hpre Hsp [(la & g & lb & x & y & -> & Hx)|(x & y & -> & Hx)].
  - destruct (spans_split _ _ _ _ Hsp) as (restT & HT & Hrest).
    inversion Hrest as [|lit g' rest' l' tail' Hg Hno Hsp' Heq]; subst.
    rewrite <-!app_assoc in HT, Hno. rewrite !bracketed_app in HT.
    rewrite <-?app_assoc in HT. apply app_inv_head, app_inv_head in HT. subst post.
    assert (spans (bracketed la x) la x) as Hpx.
    { apply (spans_prefix la ((x ++ B ++ y, g) :: lb) tail x
               (B ++ y ++ LBRACKET :: g ++ RBRACKET :: rest')).
      - by rewrite bracketed_app.
      - intros k Hk. apply Hno. rewrite length_app. lia. }
    destruct (spans_unique _ _ _ _ _ Hpre Hpx) as [-> ->].
    intros k Hk. apply Hno. rewrite !length_app in *. lia.
  - pose proof (spans_bracketed _ _ _ Hsp) as HT.
    rewrite !bracketed_app, Hx in HT. apply app_inv_head, app_inv_head in HT. subst y.
    pose proof (spans_tail_free _ _ _ Hsp) as Hno.
    assert (spans (bracketed l x) l x) as Hpx.
    { apply (spans_prefix l [] (x ++ B ++ post) x (B ++ post)).
      - rewrite app_nil_r, bracketed_app, Hx. done.
      - intros k _. apply Hno. }
    rewrite Hx in Hpx.
    destruct (spans_unique _ _ _ _ _ Hpre Hpx) as [-> ->].
    intros k _. apply Hno.
Qed.

End Literal.

(** ** Empty pairs and line breaks between brackets *)

Section LineBreaks.

Lemma lazy_None_line_break w v :
  lazy_until_close w = None -> line_break w -> lazy_until_close (w ++ v) = None.
Proof.
  induction w as [|c w IH]; intros Hw Hlb; [by inversion Hlb|].
  cbn [app lazy_until_close] in *.
  destruct (c =? RBRACKET); [done|].
  destruct (isLineTerminator c) eqn:Hc; [done|].
  apply fmap_None in Hw. inversion_clear Hlb as [? ? Hc'|? ? Hlb']; [congruence|].
  by rewrite IH.
Qed.

Lemma lazy_None_app w v :
  lazy_until_close w = None -> lazy_until_close v = None ->
  lazy_until_close (w ++ v) = None.
Proof.
  induction w as [|c w IH]; intros Hw Hv; [done|].
  cbn [app lazy_until_close] in *.
  destruct (c =? RBRACKET); [done|].
  destruct (isLineTerminator c); [done|].
  apply fmap_None in Hw. by rewrite IH.
Qed.

Lemma lazy_None_closed a b :
  lazy_until_close (a ++ RBRACKET :: b) = None -> line_break a.
Proof.
  induction a as [|c a IH]; intros Ha; [done|].
  cbn [app lazy_until_close] in Ha.
  destruct (c =? RBRACKET); [done|].
  destruct (isLineTerminator c) eqn:Hc; [by left|].
  apply fmap_None in Ha. right. by apply IH.
Qed.

Lemma closed_after_lazy post : closed_after post <-> lazy_until_close post = None.
Proof.
  split.
  - intros Hafter. destruct (lazy_until_close post) as [g|] eqn:Hg; [exfalso|done].
    apply lazy_until_close_Some in Hg as (rest & -> & Hall).
    specialize (Hafter g rest eq_refl). rewrite forallb_forall in Hall.
    apply Exists_exists in Hafter as (x & Hx & Hlt).
    apply list_elem_of_In, Hall, andb_prop in Hx as [_ Hx]. by rewrite Hlt in Hx.
  - intros Hnone a b ->. by eapply lazy_None_closed.
Qed.

(** The pattern matches nowhere from a free text to the end of an empty pair
    of brackets after it exactly when a line break parts the pair from
    every opening bracket of that text and from every closing bracket after
    the pair. *)
Lemma empty_pair_no_span t1 post :
  (forall k, ~ starts_span (drop k t1)) ->
  (forall k, (k < length (t1 ++ js "[]"))%nat ->
     ~ starts_span (drop k (t1 ++ js "[]" ++ post)))
  <-> closed_before t1 /\ closed_after post.
Proof.
  intros Hfree. change (js "[]") with [LBRACKET; RBRACKET]. split.
  - intros Hno. split.
    + intros u w ->.
      specialize (Hno (length u) ltac:(rewrite !length_app; simpl; lia)).
      rewrite <-app_assoc, drop_app_length, <-match_at_None in Hno.
      destruct w as [|c1 w]; [done|].
      cbn [app match_at] in Hno. change (LBRACKET =? LBRACKET) with true in Hno.
      destruct (isLineTerminator c1) eqn:Hc1; [by left|]. cbn [negb andb] in Hno.
      apply fmap_None in Hno.
      change (w ++ LBRACKET :: RBRACKET :: post)
        with (w ++ [LBRACKET] ++ RBRACKET :: post) in Hno.
      rewrite app_assoc in Hno. apply lazy_None_closed in Hno.
      apply Exists_app in Hno as [Hno|Hno]; [by right|].
      by apply Exists_cons in Hno as [?|?%Exists_nil].
    + apply closed_after_lazy.
      specialize (Hno (length t1) ltac:(rewrite !length_app; simpl; lia)).
      rewrite drop_app_length, <-match_at_None in Hno.
      by apply fmap_None in Hno.
  - intros [Hbefore Hafter] k Hk. apply match_at_None.
    rewrite length_app in Hk. simpl in Hk.
    destruct (decide (k < length t1)%nat) as [Hlt|Hge].
    + destruct (lookup_lt_is_Some_2 t1 k Hlt) as [c0 Hc0].
      rewrite drop_app_le, (drop_S _ _ _ Hc0) by lia.
      destruct (decide (c0 = LBRACKET)) as [->|Hne]; [|by apply match_at_not_open].
      pose proof (Hbefore (take k t1) (drop (S k) t1)) as Hlb.
      rewrite take_drop_middle in Hlb by done. specialize (Hlb eq_refl).
      specialize (Hfree k). rewrite <-match_at_None, (drop_S _ _ _ Hc0) in Hfree.
      destruct (drop (S k) t1) as [|c1 w]; [by inversion Hlb|].
      cbn [app match_at] in *. change (LBRACKET =? LBRACKET) with true in *.
      destruct (isLineTerminator c1) eqn:Hc1; [done|]. cbn [negb andb] in *.
      apply fmap_None in Hfree. apply fmap_None.
      apply lazy_None_line_break; [done|].
      inversion_clear Hlb; [congruence|done].
    + destruct (lookup (k - length t1)%nat [LBRACKET; RBRACKET]) as [c|] eqn:Hc.
      * destruct (decide (k = length t1)) as [->|Hne].
        -- rewrite drop_app_length. cbn [app match_at].
           apply fmap_None. by apply closed_after_lazy.
        -- apply match_at_None. intros Hs%starts_span_lookup.
           rewrite lookup_app_r in Hs by lia.
           destruct (k - length t1)%nat as [|[|n]] eqn:Hn; [lia|done|done].
      * apply lookup_ge_None in Hc. simpl in Hc. lia.
Qed.

(** The pattern matches nowhere from a free text to the end of a bracketed
    text after it, of which the content holds a line break and no bracket. *)
Lemma line_break_text_no_span t1 c post :
  (forall k, ~ starts_span (drop k t1)) ->
  bracket_free c -> line_break c ->
  forall k, (k < length (t1 ++ [LBRACKET] ++ c ++ [RBRACKET]))%nat ->
    ~ starts_span (drop k (t1 ++ ([LBRACKET] ++ c ++ [RBRACKET]) ++ post)).
Proof.
  intros Hfree [Hopen Hclose] Hlb k Hk.
  assert (lazy_until_close (c ++ RBRACKET :: post) = None) as Hc
    by (by apply lazy_until_close_line_break).
  rewrite !length_app in Hk. simpl in Hk.
  replace (([LBRACKET] ++ c ++ [RBRACKET]) ++ post)
    with (LBRACKET :: c ++ RBRACKET :: post) by (simpl; by rewrite <-app_assoc).
  destruct (decide (k < length t1)%nat) as [Hlt|Hge].
  - apply match_at_None.
    destruct (lookup_lt_is_Some_2 t1 k Hlt) as [c0 Hc0].
    rewrite drop_app_le, (drop_S _ _ _ Hc0) by lia.
    destruct (decide (c0 = LBRACKET)) as [->|Hne]; [|by apply match_at_not_open].
    specialize (Hfree k). rewrite <-match_at_None, (drop_S _ _ _ Hc0) in Hfree.
    destruct (drop (S k) t1) as [|c1 w].
    + cbn [app match_at]. change (LBRACKET =? LBRACKET) with true.
      change (isLineTerminator LBRACKET) with false. cbn [negb andb].
      by rewrite Hc.
    + cbn [app match_at] in *. change (LBRACKET =? LBRACKET) with true in *.
      destruct (isLineTerminator c1) eqn:Hc1; [done|]. cbn [negb andb] in *.
      apply fmap_None in Hfree. apply fmap_None.
      apply lazy_None_app; [done|].
      cbn [lazy_until_close]. change (LBRACKET =? RBRACKET) with false.
      change (isLineTerminator LBRACKET) with false. cbn match. by rewrite Hc.
  - destruct (decide (k = length t1)) as [->|Hne].
    + apply match_at_None. rewrite drop_app_length.
      destruct c as [|c1 c]; [by inversion Hlb|].
      cbn [app match_at]. change (LBRACKET =? LBRACKET) with true.
      destruct (isLineTerminator c1) eqn:Hc1; [done|]. cbn [negb andb].
      apply fmap_None. apply lazy_until_close_line_break.
      * by apply not_elem_of_cons in Hclose as [_ ?].
      * inversion_clear Hlb; [congruence|done].
    + intros Hs%starts_span_lookup.
      rewrite lookup_app_r in Hs by lia.
      destruct (k - length t1)%nat as [|n] eqn:Hn; [lia|].
      change ((c ++ RBRACKET :: post) !! n = Some LBRACKET) in Hs.
      destruct (decide (n < length c)%nat) as [Hn'|Hn'].
      * rewrite lookup_app_l in Hs by done. apply Hopen.
        by eapply list_elem_of_lookup_2.
      * rewrite lookup_app_r in Hs by lia.
        destruct (n - length c)%nat as [|m] eqn:Hm; [done|lia].
Qed.

End LineBreaks.

(** ** What the parser leaves as literal text *)

Lemma Lit_in_span_tokens l1 : forall n lit g l2,
  lit <> [] -> Lit lit ∈ span_tokens n (l1 ++ (lit, g) :: l2).
Proof.
  induction l1 as [|[lit1 g1] l1 IH]; intros n lit g l2 Hne.
  - cbn [app span_tokens]. destruct lit; [done|]. apply list_elem_of_here.
  - cbn [app span_tokens]. apply elem_of_app. right. right. by apply IH.
Qed.

Lemma in_literal_token B pre l tail :
  B <> [] -> in_literal B pre l tail ->
  exists x y, Lit (x ++ B ++ y) ∈ span_tokens 0 l ++ tail_tokens tail.
Proof.
  intros Hne [(l1 & g & l2 & x & y & -> & _)|(x & y & -> & _)]; exists x, y.
  - apply elem_of_app. left. apply Lit_in_span_tokens.
    intros [_ [? _]%app_eq_nil]%app_eq_nil. done.
  - apply elem_of_app. right.
    destruct (x ++ B ++ y) eqn:Heq; [|apply list_elem_of_here].
    apply app_eq_nil in Heq as [_ [? _]%app_eq_nil]. done.
Qed.

Lemma left_literal_intro B pre post l tail :
  B <> [] -> spans (pre ++ B ++ post) l tail -> in_literal B pre l tail ->
  left_literal B pre post.
Proof.
  intros Hne Hsp Hin. exists l, tail. split; [done|]. split; [|split; [done|]].
  - destruct (parse_spans (pre ++ B ++ post)) as (l' & tail' & Hsp' & ->).
    by destruct (spans_unique _ _ _ _ _ Hsp Hsp') as [-> ->].
  - by eapply in_literal_token.
Qed.

Lemma closed_before_no_open t : LBRACKET ∉ t -> closed_before t.
Proof. intros Hno u w ->. exfalso. apply Hno. set_solver. Qed.

Lemma closed_after_no_close post : RBRACKET ∉ post -> closed_after post.
Proof. intros Hno a b ->. exfalso. apply Hno. set_solver. Qed.

(** C10, amended. A bracket span is recognized as a blank only if its
    content is at least one character long and holds no line terminator. A
    bracketed text of which the content, of at least one character, holds
    no bracket is left in the output as literal text exactly when the content
    holds a line break, wherever the text stands in the transcript. An empty
    pair of brackets is left as literal text exactly when a line break parts
    it from every opening bracket of the text between the last span before
    it and the pair, and from every closing bracket after it; otherwise a
    span holds it. *)
Theorem blank_content_rule :
  (forall T tokens blanks g,
      parse T = Some (tokens, blanks) -> g ∈ blanks ->
      g <> [] /\ Forall (fun c => isLineTerminator c = false) g)
  /\ (forall pre c post,
        bracket_free c -> c <> [] ->
        (left_literal ([LBRACKET] ++ c ++ [RBRACKET]) pre post <-> line_break c))
  /\ (forall pre post l1 t1,
        spans pre l1 t1 ->
        (left_literal (js "[]") pre post <-> closed_before t1 /\ closed_after post)).
Proof.
  split; [|split].
  - intros T tokens blanks g Hparse Hg.
    destruct (parse_spans T) as (l & tail & Hsp & Hparse').
    rewrite Hparse in Hparse'. injection Hparse' as _ ->.
    pose proof (spans_content _ _ _ Hsp) as Hall.
    rewrite Forall_forall in Hall. specialize (Hall _ Hg).
    destruct g as [|c g]; [done|]. split; [done|].
    simpl in Hall. apply andb_prop in Hall as [Hc Hall].
    constructor; [by apply negb_true_iff|].
    apply Forall_forall. intros x Hx.
    rewrite forallb_forall in Hall.
    apply list_elem_of_In, Hall, andb_prop in Hx as [_ Hx].
    by apply negb_true_iff.
  - intros pre c post Hc Hne.
    destruct (parse_spans pre) as (l1 & t1 & Hpre & _).
    pose proof (spans_tail_free _ _ _ Hpre) as Hfree. split.
    + intros (l & tail & Hsp & _ & Hin & _).
      pose proof (literal_nec _ _ _ _ _ _ _ Hpre Hsp Hin (length t1)) as Hno.
      rewrite app_assoc, <-app_assoc, drop_app_length in Hno.
      destruct (decide (line_break c)) as [|Hlb]; [done|exfalso].
      apply Hno; [rewrite !length_app; simpl; lia|].
      exists c, post. split; [|simpl; by rewrite <-app_assoc].
      apply plain_span_content; [|done].
      apply Forall_forall. intros x Hx. destruct Hc as [Hopen Hclose].
      split; [by intros ->|]. split; [by intros ->|].
      destruct (isLineTerminator x) eqn:Hlt; [exfalso|done].
      apply Hlb, Exists_exists. eauto.
    + intros Hlb.
      destruct (parse_spans (pre ++ ([LBRACKET] ++ c ++ [RBRACKET]) ++ post))
        as (l & tail & Hsp & _).
      eapply left_literal_intro; [done|done|].
      eapply literal_suff; [done| |done].
      by apply line_break_text_no_span.
  - intros pre post l1 t1 Hpre.
    pose proof (spans_tail_free _ _ _ Hpre) as Hfree.
    rewrite <-(empty_pair_no_span t1 post Hfree). split.
    + intros (l & tail & Hsp & _ & Hin & _). by eapply literal_nec.
    + intros Hno.
      destruct (parse_spans (pre ++ js "[]" ++ post)) as (l & tail & Hsp & _).
      eapply left_literal_intro; [done|done|].
      by eapply literal_suff.
Qed.

Lemma blank_content_rule_witness :
  (js "b" <> [] /\ Forall (fun c => isLineTerminator c = false) (js "b"))
  /\ left_literal ([LBRACKET] ++ [120; 10; 121] ++ [RBRACKET]) (js "[a] ") (js " [b]")
  /\ left_literal (js "[]") (js "[a] ") (js " b")
  /\ parse (js "[a] [] b") = Some ([Blank 0; Lit (js " [] b")], [js "a"])
  /\ ~ left_literal (js "[]") (js "[a] ") (js " [b]")
  /\ parse (js "[a] [] [b]") = Some ([Blank 0; Lit (js " "); Blank 1], [js "a"; js "] [b"]).
Proof.
  destruct blank_content_rule as (H1 & H2 & H3).
  assert (spans (js "[a] ") [([], js "a")] (js " ")) as Hpre.
  { apply (spans_of_bracketed [([], js "a")] (js " ")); [|decide_mem].
    repeat constructor. decide_mem. }
  split; [|split; [|split; [|split; [|split]]]].
  - apply (H1 (js "a[b]c") [Lit (js "a"); Blank 0; Lit (js "c")] [js "b"]);
      [reflexivity|decide_mem].
  - apply (H2 (js "[a] ") [120; 10; 121] (js " [b]")).
    + split; decide_mem.
    + done.
    + right. left. reflexivity.
  - apply (H3 (js "[a] ") (js " b") _ _ Hpre). split.
    + apply closed_before_no_open. decide_mem.
    + apply closed_after_no_close. decide_mem.
  - reflexivity.
  - intros Hlit. apply (H3 (js "[a] ") (js " [b]") _ _ Hpre) in Hlit as [_ Hafter].
    specialize (Hafter (js " [b") [] eq_refl).
    apply Exists_exists in Hafter as (x & Hx & Hlt).
    repeat (apply elem_of_cons in Hx as [->|Hx]; [discriminate Hlt|]).
    by apply elem_of_nil in Hx.
  - reflexivity.
Defined.
